(** * Verification of [entity/env/env.go]: the navigation environment of Evans

    The Go package [env] keeps the REPL's position in the hierarchy
    package -> service -> RPC, a per-package cache, and a store of request
    headers.  This file embeds the package in Rocq and checks the properties
    that its specification states about it.

    Conventions of the embedding.
    - Go strings are [string]; [==] on strings is [String.eqb]/[decide], [<]
      is the byte-wise lexicographic [String.ltb].
    - [map[string]*entity.Package] and [sync.Map] are [gmap string _].
    - [*entity.Header] values are locations into an explicit heap of header
      objects, because [AddHeader] stores the caller's pointer and [Headers]
      hands out pointers: aliasing is what the copy in [Headers] is about.
    - [*entity.Package] values are read-only for this package and for the
      catalog's supplier, so a package is embedded by value; nil catalog
      entries are outside the model.
    - A Go function returning [(T, error)] returns a [Result T]; a nil-pointer
      dereference is the third outcome [Panic]. *)

From Stdlib Require Import Ascii String.
From stdpp Require Import gmap strings list fin_maps sorting.

Open Scope string_scope.
Open Scope list_scope.

(** ** Errors: [github.com/pkg/errors] *)

(** An error value is a sentinel made by [errors.New], or a wrapper made by
    [errors.Wrap]/[errors.Wrapf] around a cause.  The wrapper keeps the format
    and its operands, as the call site gives them. *)
Inductive error : Type :=
  | errors_New (msg : string)
  | errors_Wrap (cause : error) (msg : string)
  | errors_Wrapf (cause : error) (format : string) (args : list string).

Definition ErrPackageUnselected : error := errors_New "package unselected".
Definition ErrServiceUnselected : error := errors_New "service unselected".
Definition ErrUnknownPackage : error := errors_New "unknown package".
Definition ErrUnknownService : error := errors_New "unknown service".
Definition ErrInvalidServiceName : error := errors_New "invalid service name".
Definition ErrInvalidMessageName : error := errors_New "invalid message name".
Definition ErrInvalidRPCName : error := errors_New "invalid RPC name".

(** [errors.Cause]: the innermost error of a chain of wrappers. *)
Fixpoint errors_Cause (err : error) : error :=
  match err with
  | errors_New _ => err
  | errors_Wrap c _ => errors_Cause c
  | errors_Wrapf c _ _ => errors_Cause c
  end.

(** [fmt.Sprintf] on the fragment this package relies on: literal bytes, the
    verb [%s] applied to a string operand, and [%%].  A format outside the
    fragment (another verb, a missing or a surplus operand) gives [None]: its
    rendering by [fmt] is not modelled. *)
Fixpoint Sprintf (format : string) (args : list string) : option string :=
  match format with
  | EmptyString => match args with [] => Some "" | _ :: _ => None end
  | String c rest =>
      if Ascii.eqb c "%"%char then
        match rest with
        | String d rest' =>
            if Ascii.eqb d "s"%char then
              match args with
              | a :: args' => (λ r, a +:+ r) <$> Sprintf rest' args'
              | [] => None
              end
            else if Ascii.eqb d "%"%char then (String "%") <$> Sprintf rest' args
            else None
        | EmptyString => None
        end
      else (String c) <$> Sprintf rest args
  end.

(** The [Error()] method: a wrapper prints its own message, [": "], then the
    message of its cause. *)
Fixpoint Error (err : error) : option string :=
  match err with
  | errors_New msg => Some msg
  | errors_Wrap c msg => (λ r, msg +:+ ": " +:+ r) <$> Error c
  | errors_Wrapf c format args =>
      m ← Sprintf format args;
      (λ r, m +:+ ": " +:+ r) <$> Error c
  end.

(** [s] includes [sub] as a contiguous substring. *)
Definition includes (s sub : string) : Prop :=
  ∃ pre post : string, s = pre +:+ sub +:+ post.

(** ** Results *)

Inductive Result (A : Type) : Type :=
  | Ok (a : A)
  | Err (err : error)
  | Panic.
Arguments Ok {A} a.
Arguments Err {A} err.
Arguments Panic {A}.

Definition Result_bind {A B} (r : Result A) (k : A → Result B) : Result B :=
  match r with
  | Ok a => k a
  | Err err => Err err
  | Panic => Panic
  end.

(** [if err != nil { return errors.Wrapf(err, ...) }]: rewrap on the way up. *)
Definition Result_wrap {A} (w : error → error) (r : Result A) : Result A :=
  match r with
  | Ok a => Ok a
  | Err err => Err (w err)
  | Panic => Panic
  end.

Notation "'try' x ← r ; k" := (Result_bind r (λ x, k))
  (at level 10, x name, r at level 100, k at level 200, only parsing).

(** ** Library functions *)

(** [strings.Cut] for a one-byte separator: the text before and after the
    first occurrence of [sep]. *)
Fixpoint strings_Cut (s : string) (sep : ascii) : option (string * string) :=
  match s with
  | EmptyString => None
  | String c s' =>
      if Ascii.eqb c sep then Some ("", s')
      else match strings_Cut s' sep with
           | Some (a, b) => Some (String c a, b)
           | None => None
           end
  end.

(** [strings.SplitN(s, sep, n)] for a one-byte separator and [n >= 0]: at most
    [n] pieces, the last one being the unsplit remainder. *)
Fixpoint strings_SplitN (s : string) (sep : ascii) (n : nat) : list string :=
  match n with
  | 0 => []
  | S n' =>
      match n' with
      | 0 => [s]
      | S _ =>
          match strings_Cut s sep with
          | Some (a, b) => a :: strings_SplitN b sep n'
          | None => [s]
          end
      end
  end.

(** [sort.Slice(xs, less)].  The library sorts a short slice by insertion,
    taking each element in turn and moving it left past the elements it is
    less than; this is that procedure.  For headers with pairwise different
    keys the choice of procedure does not show: [sort_Slice_unique] below;
    for equal keys see [Headers]. *)
Fixpoint sort_insert {A} (less : A → A → bool) (x : A) (sorted : list A) : list A :=
  match sorted with
  | [] => [x]
  | y :: sorted' =>
      if less x y then x :: y :: sorted' else y :: sort_insert less x sorted'
  end.

Definition sort_Slice {A} (less : A → A → bool) (xs : list A) : list A :=
  fold_left (λ sorted x, sort_insert less x sorted) xs [].

(** ** Entities: [github.com/ktr0731/evans/entity]

    The package [entity] is used through these declarations only: the
    interfaces [Service], [Message] and [RPC] with their [Name()] (and
    [RPCs()]) methods, and the structs [Package] and [Header]. *)
Module entity.

Class Entities : Type := {
  RPC : Type;
  Message : Type;
  Service : Type;
  RPC_Name : RPC → string;
  Message_Name : Message → string;
  Service_Name : Service → string;
  Service_RPCs : Service → list RPC;
}.

Record Package `{entity.Entities} : Type := mkPackage {
  Name : string;
  Services : list Service;
  Messages : list Message;
}.

Record Header : Type := mkHeader {
  Key : string;
  Val : string;
}.

End entity.

(** A [*entity.Header] is an index into the heap of header objects; an index
    past the end plays the role of nil. *)
Abbreviation loc := nat (only parsing).
Abbreviation Heap := (list entity.Header) (only parsing).

(** [&entity.Header{...}]: allocation of a new header object. *)
Definition alloc (σ : Heap) (h : entity.Header) : Heap * loc := (σ ++ [h], length σ).

(** The header objects that a slice of pointers refers to. *)
Definition deref (σ : Heap) (ls : list loc) : list entity.Header :=
  omap (λ l, σ !! l) ls.

(** The pointers [ls] refer to header objects of [σ]. *)
Definition allocated (σ : Heap) (ls : list loc) : Prop :=
  Forall (λ l, is_Some (σ !! l)) ls.

(** ** The environment *)

Record state : Type := mkState {
  currentPackage : string;
  currentService : string;
}.

Record option_ : Type := mkOption {
  headers : gmap string loc;
}.

Record cache `{entity.Entities} : Type := mkCache {
  pkgList : list entity.Package;
  pkg : gmap string entity.Package;
}.

Record Env `{entity.Entities} : Type := mkEnv {
  pkgs : list entity.Package;
  e_state : state;
  e_option : option_;
  e_cache : cache;
}.

Section Environment.
Context `{entity.Entities}.

Definition set_currentPackage (name : string) (e : Env) : Env :=
  {| pkgs := pkgs e;
     e_state := {| currentPackage := name;
                   currentService := currentService (e_state e) |};
     e_option := e_option e;
     e_cache := e_cache e |}.

Definition set_currentService (name : string) (e : Env) : Env :=
  {| pkgs := pkgs e;
     e_state := {| currentPackage := currentPackage (e_state e);
                   currentService := name |};
     e_option := e_option e;
     e_cache := e_cache e |}.

Definition set_cache_pkg (name : string) (p : entity.Package) (e : Env) : Env :=
  {| pkgs := pkgs e;
     e_state := e_state e;
     e_option := e_option e;
     e_cache := {| pkgList := pkgList (e_cache e);
                   pkg := <[name := p]> (pkg (e_cache e)) |} |}.

Definition upd_headers (f : gmap string loc → gmap string loc) (e : Env) : Env :=
  {| pkgs := pkgs e;
     e_state := e_state e;
     e_option := {| headers := f (headers (e_option e)) |};
     e_cache := e_cache e |}.

(** [for _, x := range xs { if name == x.Name() { return x } }]: the scan
    that every lookup of this package performs. *)
Fixpoint scan {A} (name_of : A → string) (name : string) (xs : list A) : option A :=
  match xs with
  | [] => None
  | x :: xs' => if String.eqb name (name_of x) then Some x else scan name_of name xs'
  end.

Definition HasCurrentPackage (e : Env) : bool :=
  negb (String.eqb (currentPackage (e_state e)) "").

Definition HasCurrentService (e : Env) : bool :=
  negb (String.eqb (currentService (e_state e)) "").

Definition Packages (e : Env) : list entity.Package := pkgs e.

(** [e.cache.pkg[e.state.currentPackage].Services]: the map read gives nil
    for an absent key, and the field read of nil panics. *)
Definition Services (e : Env) : Result (list entity.Service) :=
  if negb (HasCurrentPackage e) then Err ErrPackageUnselected
  else match pkg (e_cache e) !! currentPackage (e_state e) with
       | Some p => Ok (entity.Services p)
       | None => Panic
       end.

Definition Messages (e : Env) : Result (list entity.Message) :=
  if negb (HasCurrentPackage e) then Err ErrPackageUnselected
  else match pkg (e_cache e) !! currentPackage (e_state e) with
       | Some p => Ok (entity.Messages p)
       | None => Panic
       end.

Definition Service (name : string) (e : Env) : Result entity.Service :=
  try svc ← Services e;
  match scan entity.Service_Name name svc with
  | Some s => Ok s
  | None => Err (errors_Wrapf ErrInvalidServiceName "%s not found" [name])
  end.

Definition Message (name : string) (e : Env) : Result entity.Message :=
  try msg ← Messages e;
  match scan entity.Message_Name name msg with
  | Some m => Ok m
  | None => Err (errors_Wrapf ErrInvalidMessageName "%s not found" [name])
  end.

Definition RPCs (e : Env) : Result (list entity.RPC) :=
  if negb (HasCurrentService e) then Err ErrServiceUnselected
  else try svc ← Service (currentService (e_state e)) e;
       Ok (entity.Service_RPCs svc).

Definition RPC (name : string) (e : Env) : Result entity.RPC :=
  try rpcs ← RPCs e;
  match scan entity.RPC_Name name rpcs with
  | Some r => Ok r
  | None => Err (errors_Wrapf ErrInvalidRPCName "%s not found" [name])
  end.

End Environment.

(** ** Operations that change the environment

    The receiver [e *Env] and the header objects form the world that a call
    runs in.  A call returns the world it leaves behind together with its
    result, also when the result is an error or a panic. *)

Definition World `{entity.Entities} : Type := Heap * Env.

Definition M `{entity.Entities} (A : Type) : Type := World → World * Result A.

Section Operations.
Context `{entity.Entities}.

Definition M_ret {A} (a : A) : M A := λ w, (w, Ok a).
Definition M_fail {A} (err : error) : M A := λ w, (w, Err err).
Definition M_panic {A} : M A := λ w, (w, Panic).

Definition M_bind {A B} (m : M A) (k : A → M B) : M B := λ w,
  match m w with
  | (w', Ok a) => k a w'
  | (w', Err err) => (w', Err err)
  | (w', Panic) => (w', Panic)
  end.

Definition M_wrap {A} (f : error → error) (m : M A) : M A := λ w,
  let '(w', r) := m w in (w', Result_wrap f r).

(** A read of the receiver, and an assignment to it. *)
Definition M_query {A} (q : Env → Result A) : M A := λ w, (w, q w.2).
Definition M_modify (f : Env → Env) : M unit := λ w, ((w.1, f w.2), Ok tt).

Notation "'do' x ← m ; k" := (M_bind m (λ x, k))
  (at level 10, x name, m at level 100, k at level 200, only parsing).
Notation "m ;; k" := (M_bind m (λ _, k))
  (at level 100, k at level 200, right associativity, only parsing).

Definition UsePackage (name : string) : M unit := λ w,
  match scan entity.Name name (Packages w.2) with
  | Some p =>
      (M_modify (set_currentPackage name) ;;
       M_modify (set_cache_pkg name p)) w
  | None => M_fail (errors_Wrapf ErrUnknownPackage "%s not found" [name]) w
  end.

Definition please_set_package : string :=
  "please set package (package_name.service_name or set --package flag)".

Definition UseService (name : string) : M unit :=
  (λ w,
     if String.eqb (currentPackage (e_state w.2)) "" then
       let s := strings_SplitN name "." 2 in
       if negb (Nat.eqb (length s) 2) then
         M_fail (errors_Wrap ErrPackageUnselected please_set_package) w
       else
         M_wrap (λ err, errors_Wrapf err name []) (UsePackage (nth 0 s "")) w
     else M_ret tt w) ;;
  do services ← M_wrap (λ err, errors_Wrapf err "failed to get services" [])
                  (M_query Services);
  match scan entity.Service_Name name services with
  | Some _ => M_modify (set_currentService name)
  | None => M_fail (errors_Wrapf ErrUnknownService "%s not found" [name])
  end.

Definition DSN (e : Env) : string :=
  if String.eqb (currentPackage (e_state e)) "" then ""
  else
    let dsn := currentPackage (e_state e) in
    if negb (String.eqb (currentService (e_state e)) "")
    then dsn +:+ "." +:+ currentService (e_state e)
    else dsn.

(** *** The header store *)

(** [e.option.headers.Store(h.Key, h)]: the pointer itself is stored. *)
Definition AddHeader (h : loc) : M unit := λ w,
  match w.1 !! h with
  | Some hv => M_modify (upd_headers (<[entity.Key hv := h]>)) w
  | None => M_panic w
  end.

Definition RemoveHeader (key : string) : M unit :=
  M_modify (upd_headers (delete key)).

(** The callback of [Range] in [Headers], run over the entries [kvs] in the
    order the map hands them out: each stored header is read and a new
    object with its [Key] and [Val] is appended to [headers]. *)
Fixpoint Headers_range (kvs : list (string * loc)) (headers : list loc) : M (list loc) :=
  match kvs with
  | [] => M_ret headers
  | (_, v) :: kvs' => λ w,
      match w.1 !! v with
      | Some h =>
          let '(σ', l) := alloc w.1 {| entity.Key := entity.Key h;
                                       entity.Val := entity.Val h |} in
          Headers_range kvs' (headers ++ [l]) (σ', w.2)
      | None => M_panic w
      end
  end.

(** [headers[i].Key < headers[j].Key], read through the pointers. *)
Definition Header_less (hi hj : entity.Header) : bool :=
  String.ltb (entity.Key hi) (entity.Key hj).

(** Ascending by key: the order that [Headers] promises. *)
Definition Header_le (hi hj : entity.Header) : Prop :=
  String.le (entity.Key hi) (entity.Key hj).

Definition Headers_less (σ : Heap) (i j : loc) : bool :=
  match σ !! i, σ !! j with
  | Some hi, Some hj => Header_less hi hj
  | _, _ => false
  end.

(** The orders in which [Range] may hand out the entries of the store.
    [sync.Map] promises no order, so every arrangement of the entries is
    one. *)
Definition Range_order (w : World) (range : list (string * loc)) : Prop :=
  range ≡ₚ map_to_list (headers (e_option w.2)).

(** [Headers], for the order [range] that [Range] takes in this call.  The
    order is not the caller's to choose: what is stated of [Headers] is
    stated for every [range] with [Range_order].  The orders of [Range] also
    account for the freedom of [sort.Slice] among equal keys: every slice
    that is ascending by key and holds the stored headers is returned for
    some order ([Headers_every_sorted_order] below). *)
Definition Headers (range : list (string * loc)) : M (list loc) :=
  do headers ← Headers_range range [];
  λ w, M_ret (sort_Slice (Headers_less w.1) headers) w.

(** *** Constructors *)

Fixpoint New_loop (defaultHeaders : list entity.Header) : M unit :=
  match defaultHeaders with
  | [] => M_ret tt
  | h :: rest => λ w,
      let '(σ', l) := alloc w.1 {| entity.Key := entity.Key h;
                                   entity.Val := entity.Val h |} in
      (AddHeader l ;; New_loop rest) (σ', w.2)
  end.

Definition New (pkgs : list entity.Package) (defaultHeaders : list entity.Header)
    (σ : Heap) : World * Result unit :=
  let env := {| pkgs := pkgs;
                e_state := {| currentPackage := ""; currentService := "" |};
                e_option := {| headers := ∅ |};
                e_cache := {| pkgList := []; pkg := ∅ |} |} in
  New_loop defaultHeaders (σ, env).

Definition NewFromServices (svcs : list entity.Service) (msgs : list entity.Message)
    (defaultHeaders : list entity.Header) (σ : Heap) : World * Result unit :=
  match New [ {| entity.Name := "default";
                 entity.Services := svcs;
                 entity.Messages := msgs |} ] defaultHeaders σ with
  | (w, Ok _) =>
      match pkgs w.2 with
      | p0 :: _ =>
          match UsePackage (entity.Name p0) w with
          | (w', Err err) => (w', Panic)
          | r => r
          end
      | [] => (w, Panic)
      end
  | r => r
  end.

End Operations.

(** ** Reachable worlds

    What a client of the package can do to a world: call a method that
    changes the receiver, or, outside the package, allocate a header object
    and write to a header object it holds a pointer to.  The queries
    ([Packages], [Services], [Messages], [RPCs], [Service], [Message], [RPC],
    [DSN]) read the receiver and assign nothing, so they are functions of
    [Env] and make no step.  A step is taken whatever the call returns: the
    world after a failed call is the world that call left. *)

Section Reachability.
Context `{entity.Entities}.

Inductive step : World → World → Prop :=
  | step_UsePackage name w : step w (UsePackage name w).1
  | step_UseService name w : step w (UseService name w).1
  | step_AddHeader h w : step w (AddHeader h w).1
  | step_RemoveHeader key w : step w (RemoveHeader key w).1
  | step_Headers range w : Range_order w range → step w (Headers range w).1
  | step_client_alloc hv w : step w ((alloc w.1 hv).1, w.2)
  | step_client_store l hv w : step w (<[l := hv]> w.1, w.2).

Inductive reachable : World → Prop :=
  | reachable_New pkgs defaultHeaders σ :
      reachable (New pkgs defaultHeaders σ).1
  | reachable_NewFromServices svcs msgs defaultHeaders σ w :
      NewFromServices svcs msgs defaultHeaders σ = (w, Ok tt) →
      reachable w
  | reachable_step w w' : reachable w → step w w' → reachable w'.

(** [x] is the first element of [xs], in list order, whose name is [name]. *)
Definition first_match {A} (name_of : A → string) (name : string)
    (xs : list A) (x : A) : Prop :=
  ∃ before after : list A,
    xs = before ++ x :: after ∧ name_of x = name ∧
    Forall (λ y, name_of y ≠ name) before.

(** The header stored under [key], read through the stored pointer. *)
Definition stored_header (w : World) (key : string) : option entity.Header :=
  l ← headers (e_option w.2) !! key; w.1 !! l.

(** The stored header objects, listed in the order of the map's entries; a
    call of [Headers] may visit them in any other order. *)
Definition stored_headers (w : World) : list entity.Header :=
  deref w.1 (map_to_list (headers (e_option w.2))).*2.

(** Every stored pointer refers to an allocated header object. *)
Definition headers_allocated (w : World) : Prop :=
  map_Forall (λ _ l, is_Some (w.1 !! l)) (headers (e_option w.2)).

(** The client's writes [ws] to header objects, in order. *)
Definition client_stores (ws : list (loc * entity.Header)) (σ : Heap) : Heap :=
  fold_left (λ σ' lh, <[lh.1 := lh.2]> σ') ws σ.

End Reachability.

(** ** A concrete catalog

    Entities with a name and a tag; the tag tells apart two entities of the
    same name. *)
Module Demo.

Record rpc : Type := mkRpc { rpc_name : string; rpc_tag : nat }.
Record message : Type := mkMessage { message_name : string; message_tag : nat }.
Record service : Type := mkService {
  service_name : string;
  service_rpcs : list rpc;
  service_tag : nat;
}.

Definition entities : entity.Entities :=
  {| entity.RPC := rpc;
     entity.Message := message;
     entity.Service := service;
     entity.RPC_Name := rpc_name;
     entity.Message_Name := message_name;
     entity.Service_Name := service_name;
     entity.Service_RPCs := service_rpcs |}.

Section Catalog.
#[local] Existing Instance entities.

Definition SayHello : rpc := mkRpc "SayHello" 0.
Definition Greeter : service := mkService "Greeter" [SayHello] 0.
Definition greet_Greeter : service := mkService "greet.Greeter" [SayHello] 1.

Definition greet : entity.Package :=
  {| entity.Name := "greet";
     entity.Services := [Greeter; greet_Greeter];
     entity.Messages := [mkMessage "HelloRequest" 0; mkMessage "HelloRequest" 1] |}.

Definition other : entity.Package :=
  {| entity.Name := "other"; entity.Services := []; entity.Messages := [] |}.

(** The package of a proto file that declares no package. *)
Definition unnamed : entity.Package :=
  {| entity.Name := "";
     entity.Services := [mkService ".Echo" [] 0];
     entity.Messages := [] |}.

Definition catalog : list entity.Package := [greet; other; unnamed].

Definition start : World :=
  (New catalog [ {| entity.Key := "b"; entity.Val := "2" |};
                 {| entity.Key := "a"; entity.Val := "1" |} ] []).1.

(** [greet] selected, then its service [Greeter]. *)
Definition at_greet : World := (UsePackage "greet" start).1.
Definition at_Greeter : World := (UseService "Greeter" at_greet).1.

(** The same two selections in a catalog whose packages all have a name. *)
Definition named_start : World := (New [greet; other] [] []).1.
Definition named_at_Greeter : World :=
  (UseService "Greeter" (UsePackage "greet" named_start).1).1.

End Catalog.
End Demo.


(** ** Further notions for the header store, the cache and the runs *)

(** The default header that [New] leaves under [key]: the loop of [New] runs
    front to back and each [AddHeader] overwrites, so it is the last header
    of [defaultHeaders] with that key. *)
Fixpoint last_header (key : string) (defaultHeaders : list entity.Header)
    : option entity.Header :=
  match defaultHeaders with
  | [] => None
  | h :: rest =>
      match last_header key rest with
      | Some h' => Some h'
      | None => if String.eqb (entity.Key h) key then Some h else None
      end
  end.

Section FurtherNotions.
Context `{entity.Entities}.

(** Every header is stored under its own key: the state of the store as long
    as no client writes to an object it has handed to [AddHeader]. *)
Definition keys_agree (w : World) : Prop :=
  map_Forall (λ key l, ∃ hv, w.1 !! l = Some hv ∧ entity.Key hv = key)
    (headers (e_option w.2)).

(** The steps of a client that calls the methods and allocates header
    objects, but writes to none of them afterwards. *)
Inductive api_step : World → World → Prop :=
  | api_UsePackage name w : api_step w (UsePackage name w).1
  | api_UseService name w : api_step w (UseService name w).1
  | api_AddHeader h w : api_step w (AddHeader h w).1
  | api_RemoveHeader key w : api_step w (RemoveHeader key w).1
  | api_Headers range w : Range_order w range → api_step w (Headers range w).1
  | api_client_alloc hv w : api_step w ((alloc w.1 hv).1, w.2).

Inductive api_reachable : World → Prop :=
  | api_New pkgs defaultHeaders σ :
      api_reachable (New pkgs defaultHeaders σ).1
  | api_NewFromServices svcs msgs defaultHeaders σ w :
      NewFromServices svcs msgs defaultHeaders σ = (w, Ok tt) →
      api_reachable w
  | api_reachable_step w w' : api_reachable w → api_step w w' → api_reachable w'.

(** Every cache entry is the package that [UsePackage] finds under that
    name: the first one of the catalog. *)
Definition cache_consistent (e : Env) : Prop :=
  ∀ name p, pkg (e_cache e) !! name = Some p →
            first_match entity.Name name (pkgs e) p.

End FurtherNotions.

(** * Properties *)

(** ** Library functions *)

Lemma Sprintf_literal (s : string) :
  (∀ c, In c (list_ascii_of_string s) → c ≠ "%"%char) →
  Sprintf s [] = Some s.
Proof.
  induction s as [|c s IH]; intros Hs; [done|].
  cbn [Sprintf]. destruct (Ascii.eqb_spec c "%") as [->|_].
  - exfalso. by apply (Hs "%"%char); [left|].
  - rewrite IH; [done|]. intros d Hd. apply Hs. by right.
Qed.

Lemma string_app_assoc (a b c : string) : (a +:+ b) +:+ c = a +:+ b +:+ c.
Proof.
  induction a as [|x a IH]; [done|].
  change (String x ((a +:+ b) +:+ c) = String x (a +:+ b +:+ c)).
  by rewrite IH.
Qed.

Lemma Sprintf_not_found (name : string) :
  Sprintf "%s not found" [name] = Some (name +:+ " not found").
Proof. reflexivity. Qed.

Lemma Error_not_found (sentinel name : string) :
  Error (errors_Wrapf (errors_New sentinel) "%s not found" [name])
  = Some (name +:+ " not found: " +:+ sentinel).
Proof.
  cbn [Error]. rewrite Sprintf_not_found.
  change (Some ((name +:+ " not found") +:+ ": " +:+ sentinel)
          = Some (name +:+ " not found" +:+ ": " +:+ sentinel)).
  by rewrite string_app_assoc.
Qed.

Lemma includes_prefix (s post : string) : includes (s +:+ post) s.
Proof. by exists "", post. Qed.

Lemma strings_SplitN_2 (s : string) (sep : ascii) :
  strings_SplitN s sep 2
  = match strings_Cut s sep with Some (a, b) => [a; b] | None => [s] end.
Proof. cbn [strings_SplitN]. by destruct (strings_Cut s sep) as [[a b]|]. Qed.

Lemma strings_Cut_Some (sep : ascii) (a b : string) :
  ¬ includes a (String sep "") →
  strings_Cut (a +:+ String sep b) sep = Some (a, b).
Proof.
  induction a as [|c a IH]; intros Hsep.
  - change (strings_Cut (String sep b) sep = Some ("", b)).
    cbn [strings_Cut]. by rewrite Ascii.eqb_refl.
  - change (strings_Cut (String c (a +:+ String sep b)) sep = Some (String c a, b)).
    cbn [strings_Cut]. destruct (Ascii.eqb_spec c sep) as [->|_].
    + destruct Hsep. by exists "", a.
    + rewrite IH; [done|]. intros (pre & post & ->).
      apply Hsep. by exists (String c pre), post.
Qed.

Lemma strings_Cut_inv (sep : ascii) (s a b : string) :
  strings_Cut s sep = Some (a, b) →
  s = a +:+ String sep b ∧ ¬ includes a (String sep "").
Proof.
  revert a. induction s as [|c s IH]; intros a; [done|]. cbn [strings_Cut].
  destruct (Ascii.eqb_spec c sep) as [->|Hne].
  - intros [= <- <-]. split; [done|]. intros (pre & post & Heq).
    by destruct pre.
  - destruct (strings_Cut s sep) as [[a' b']|]; [|done].
    intros [= <- <-]. destruct (IH a' eq_refl) as [-> Hno]. split; [done|].
    intros (pre & post & Heq). destruct pre as [|d pre].
    + injection Heq as -> _. done.
    + injection Heq as _ ->. apply Hno. by exists pre, post.
Qed.

Lemma strings_Cut_None (sep : ascii) (s : string) :
  (∀ a b, s ≠ a +:+ String sep b) → strings_Cut s sep = None.
Proof.
  intros Hno. destruct (strings_Cut s sep) as [[a b]|] eqn:Hcut; [|done].
  apply strings_Cut_inv in Hcut as [-> _]. by destruct (Hno a b).
Qed.

Lemma strings_Cut_includes (sep : ascii) (s : string) :
  strings_Cut s sep = None → ¬ includes s (String sep "").
Proof.
  intros Hcut (pre & post & ->). revert Hcut.
  induction pre as [|c pre IH].
  - change (strings_Cut (String sep post) sep = None → False).
    cbn [strings_Cut]. by rewrite Ascii.eqb_refl.
  - change (strings_Cut (String c (pre +:+ String sep "" +:+ post)) sep = None
            → False).
    cbn [strings_Cut]. destruct (Ascii.eqb c sep); [done|].
    destruct (strings_Cut _ sep) as [[a b]|]; [done|]. exact IH.
Qed.

(** ** The scan *)

Section Scan.
Context {A : Type} (name_of : A → string).

Lemma scan_Some (name : string) (xs : list A) (x : A) :
  scan name_of name xs = Some x ↔ first_match name_of name xs x.
Proof.
  split.
  - induction xs as [|y xs IH]; [done|]. cbn [scan].
    destruct (String.eqb_spec name (name_of y)) as [Heq|Hne].
    + intros [= ->]. by exists [], xs.
    + intros (before & after & -> & Hx & Hb)%IH.
      exists (y :: before), after. split_and!; [done..|].
      constructor; [congruence|done].
  - intros (before & after & -> & Hx & Hb).
    induction Hb as [|y before Hy _ IH]; cbn [scan app].
    + by rewrite Hx, String.eqb_refl.
    + destruct (String.eqb_spec name (name_of y)); [congruence|done].
Qed.

Lemma scan_None (name : string) (xs : list A) :
  scan name_of name xs = None ↔ Forall (λ y, name_of y ≠ name) xs.
Proof.
  induction xs as [|y xs IH]; cbn [scan]; [by split; [constructor|]|].
  destruct (String.eqb_spec name (name_of y)) as [Heq|Hne].
  - split; [done|]. by intros [? _]%Forall_cons.
  - rewrite IH, Forall_cons. split; [by split|by intros [_ ?]].
Qed.

Lemma first_match_unique (name : string) (xs : list A) (x y : A) :
  first_match name_of name xs x → first_match name_of name xs y → x = y.
Proof. rewrite <-!scan_Some. congruence. Qed.

End Scan.

(** ** Selecting a package *)

Section Selection.
Context `{entity.Entities}.

Lemma UsePackage_found (name : string) (w : World) (p : entity.Package) :
  scan entity.Name name (pkgs w.2) = Some p →
  UsePackage name w
  = ((w.1, set_cache_pkg name p (set_currentPackage name w.2)), Ok tt).
Proof. intros Hp. unfold UsePackage, Packages. by rewrite Hp. Qed.

Lemma UsePackage_not_found (name : string) (w : World) :
  scan entity.Name name (pkgs w.2) = None →
  UsePackage name w
  = (w, Err (errors_Wrapf ErrUnknownPackage "%s not found" [name])).
Proof. intros Hp. unfold UsePackage, Packages. by rewrite Hp. Qed.

(** The two outcomes of [UsePackage], by what the scan of the catalog finds. *)
Lemma UsePackage_cases (name : string) (w : World) :
  (∃ p, first_match entity.Name name (pkgs w.2) p ∧
        UsePackage name w
        = ((w.1, set_cache_pkg name p (set_currentPackage name w.2)), Ok tt))
  ∨ (Forall (λ p, entity.Name p ≠ name) (pkgs w.2) ∧
     UsePackage name w
     = (w, Err (errors_Wrapf ErrUnknownPackage "%s not found" [name]))).
Proof.
  destruct (scan entity.Name name (pkgs w.2)) as [p|] eqn:Hp.
  - left. exists p. split; [by apply scan_Some|by apply UsePackage_found].
  - right. split; [by apply scan_None|by apply UsePackage_not_found].
Qed.

(** C3.  When no package of the catalog is called [name], [UsePackage name]
    returns an error whose cause is [ErrUnknownPackage] and whose message
    starts with [name], and it leaves the whole world as it was: the current
    package, the current service and the cache in particular. *)
Theorem UsePackage_unknown_fails_unchanged (name : string) (w : World) :
  Forall (λ p, entity.Name p ≠ name) (pkgs w.2) →
  ∃ err : error,
    UsePackage name w = (w, Err err) ∧
    errors_Cause err = ErrUnknownPackage ∧
    Error err = Some (name +:+ " not found: unknown package") ∧
    (∃ msg, Error err = Some msg ∧ includes msg name) ∧
    currentPackage (e_state (UsePackage name w).1.2) = currentPackage (e_state w.2) ∧
    currentService (e_state (UsePackage name w).1.2) = currentService (e_state w.2) ∧
    e_cache (UsePackage name w).1.2 = e_cache w.2.
Proof.
  intros Hnone%scan_None.
  exists (errors_Wrapf ErrUnknownPackage "%s not found" [name]).
  rewrite (UsePackage_not_found _ _ Hnone).
  split_and!; try done.
  - apply Error_not_found.
  - eexists. split; [apply Error_not_found|apply includes_prefix].
Qed.

Lemma UsePackage_Ok_inv (name : string) (w w' : World) :
  UsePackage name w = (w', Ok tt) →
  ∃ p, first_match entity.Name name (pkgs w.2) p ∧
       w' = (w.1, set_cache_pkg name p (set_currentPackage name w.2)).
Proof.
  destruct (UsePackage_cases name w) as [(p & Hp & ->)|[_ ->]]; [|done].
  intros [= <-]. by exists p.
Qed.

(** C4.  A successful [UsePackage name] sets the current package to [name]
    and the cache entry of [name] to the first package of that name, and
    changes nothing else: the current service keeps its value, whatever the
    services of the package now selected are. *)
Theorem UsePackage_keeps_currentService (name : string) (w w' : World) :
  UsePackage name w = (w', Ok tt) →
  currentService (e_state w'.2) = currentService (e_state w.2) ∧
  currentPackage (e_state w'.2) = name ∧
  (∃ p, first_match entity.Name name (pkgs w.2) p ∧
        pkg (e_cache w'.2) = <[name := p]> (pkg (e_cache w.2))) ∧
  pkgList (e_cache w'.2) = pkgList (e_cache w.2) ∧
  pkgs w'.2 = pkgs w.2 ∧
  e_option w'.2 = e_option w.2 ∧
  w'.1 = w.1.
Proof.
  intros (p & Hp & ->)%UsePackage_Ok_inv. split_and!; try done. by exists p.
Qed.

End Selection.

(** ** Lookups by name *)

Section Lookups.
Context `{entity.Entities}.

Lemma first_match_or_none {A} (name_of : A → string) (name : string) (xs : list A) :
  (∃ x, first_match name_of name xs x) ∨ Forall (λ y, name_of y ≠ name) xs.
Proof.
  destruct (scan name_of name xs) as [x|] eqn:Hscan.
  - left. exists x. by apply scan_Some.
  - right. by apply scan_None.
Qed.

Lemma Service_scan (name : string) (e : Env) (svcs : list entity.Service) :
  Services e = Ok svcs →
  Service name e
  = match scan entity.Service_Name name svcs with
    | Some s => Ok s
    | None => Err (errors_Wrapf ErrInvalidServiceName "%s not found" [name])
    end.
Proof. intros Hs. unfold Service. by rewrite Hs. Qed.

Lemma Message_scan (name : string) (e : Env) (msgs : list entity.Message) :
  Messages e = Ok msgs →
  Message name e
  = match scan entity.Message_Name name msgs with
    | Some m => Ok m
    | None => Err (errors_Wrapf ErrInvalidMessageName "%s not found" [name])
    end.
Proof. intros Hs. unfold Message. by rewrite Hs. Qed.

Lemma RPC_scan (name : string) (e : Env) (rpcs : list entity.RPC) :
  RPCs e = Ok rpcs →
  RPC name e
  = match scan entity.RPC_Name name rpcs with
    | Some r => Ok r
    | None => Err (errors_Wrapf ErrInvalidRPCName "%s not found" [name])
    end.
Proof. intros Hs. unfold RPC. by rewrite Hs. Qed.

(** The two cases of a lookup whose scan has been exposed: the scan found the
    first match, or it found nothing and the error is the wrapped sentinel. *)
Ltac lookup_cases :=
  split;
  [ by intros ? ->%scan_Some
  | intros ->%scan_None; eexists;
    split_and!; [done..|apply Error_not_found|];
    eexists; split; [apply Error_not_found|apply includes_prefix] ].

Lemma RPCs_selected (e : Env) :
  currentService (e_state e) ≠ "" →
  RPCs e = (try svc ← Service (currentService (e_state e)) e;
            Ok (entity.Service_RPCs svc)).
Proof.
  intros Hsel%String.eqb_neq. unfold RPCs, HasCurrentService. by rewrite Hsel.
Qed.

(** The lists that the lookups scan, read off the state: the services and
    messages of the cache entry of the current package, and the RPCs of the
    first service of that package called as the current service. *)
Lemma scopes_of_state (e : Env) (p : entity.Package) :
  currentPackage (e_state e) ≠ "" →
  pkg (e_cache e) !! currentPackage (e_state e) = Some p →
  Services e = Ok (entity.Services p) ∧
  Messages e = Ok (entity.Messages p) ∧
  ∀ svc, currentService (e_state e) ≠ "" →
         first_match entity.Service_Name (currentService (e_state e))
           (entity.Services p) svc →
         RPCs e = Ok (entity.Service_RPCs svc).
Proof.
  intros Hsel%String.eqb_neq Hp.
  assert (Services e = Ok (entity.Services p)) as Hs.
  { unfold Services, HasCurrentPackage. by rewrite Hsel, Hp. }
  split_and!; [done| |].
  - unfold Messages, HasCurrentPackage. by rewrite Hsel, Hp.
  - intros svc Hsvc Hfirst%scan_Some.
    rewrite (RPCs_selected _ Hsvc), (Service_scan _ _ _ Hs). by rewrite Hfirst.
Qed.

(** C5.  With a package selected and [p] its cache entry, [Service name] and
    [Message name] return the first element, in list order, of the services
    and of the messages of [p] whose name is exactly [name], other elements
    of the same name notwithstanding; with a service selected too, [svc]
    being the first service of [p] called as the current service, [RPC name]
    returns the first RPC of [svc] whose name is exactly [name].  When no
    element of the list has that name they fail with an error whose cause is
    [ErrInvalidServiceName], [ErrInvalidMessageName] or [ErrInvalidRPCName]
    and whose message starts with [name]. *)
Theorem lookups_return_first_match (name : string) (e : Env) (p : entity.Package) :
  currentPackage (e_state e) ≠ "" →
  pkg (e_cache e) !! currentPackage (e_state e) = Some p →
  ((∀ s, first_match entity.Service_Name name (entity.Services p) s →
         Service name e = Ok s) ∧
   (Forall (λ s, entity.Service_Name s ≠ name) (entity.Services p) →
    ∃ err, Service name e = Err err ∧
           errors_Cause err = ErrInvalidServiceName ∧
           Error err = Some (name +:+ " not found: invalid service name") ∧
           ∃ msg, Error err = Some msg ∧ includes msg name)) ∧
  ((∀ m, first_match entity.Message_Name name (entity.Messages p) m →
         Message name e = Ok m) ∧
   (Forall (λ m, entity.Message_Name m ≠ name) (entity.Messages p) →
    ∃ err, Message name e = Err err ∧
           errors_Cause err = ErrInvalidMessageName ∧
           Error err = Some (name +:+ " not found: invalid message name") ∧
           ∃ msg, Error err = Some msg ∧ includes msg name)) ∧
  (∀ svc, currentService (e_state e) ≠ "" →
     first_match entity.Service_Name (currentService (e_state e))
       (entity.Services p) svc →
     (∀ r, first_match entity.RPC_Name name (entity.Service_RPCs svc) r →
           RPC name e = Ok r) ∧
     (Forall (λ r, entity.RPC_Name r ≠ name) (entity.Service_RPCs svc) →
      ∃ err, RPC name e = Err err ∧
             errors_Cause err = ErrInvalidRPCName ∧
             Error err = Some (name +:+ " not found: invalid RPC name") ∧
             ∃ msg, Error err = Some msg ∧ includes msg name)).
Proof.
  intros Hsel Hp. destruct (scopes_of_state e p Hsel Hp) as (Hs & Hm & Hr).
  split; [|split].
  - rewrite (Service_scan _ _ _ Hs). lookup_cases.
  - rewrite (Message_scan _ _ _ Hm). lookup_cases.
  - intros svc Hsvc Hfirst. rewrite (RPC_scan _ _ _ (Hr svc Hsvc Hfirst)).
    lookup_cases.
Qed.

End Lookups.

(** ** Selecting a service *)

Section ServiceSelection.
Context `{entity.Entities}.

(** The second half of [UseService]: the lookup of [name] among the services
    of the current package, in the world [w]. *)
Lemma UseService_selected (name : string) (w : World) :
  currentPackage (e_state w.2) ≠ "" →
  UseService name w
  = match Services w.2 with
    | Ok services =>
        match scan entity.Service_Name name services with
        | Some _ => ((w.1, set_currentService name w.2), Ok tt)
        | None => (w, Err (errors_Wrapf ErrUnknownService "%s not found" [name]))
        end
    | Err err => (w, Err (errors_Wrapf err "failed to get services" []))
    | Panic => (w, Panic)
    end.
Proof.
  intros Hsel%String.eqb_neq. unfold UseService, M_bind. rewrite Hsel.
  unfold M_ret, M_wrap, M_query. destruct (Services w.2) as [svcs| |]; [|done..].
  cbn [Result_wrap]. by destruct (scan _ name svcs).
Qed.

Lemma UseService_unselected_nodot (name : string) (w : World) :
  currentPackage (e_state w.2) = "" →
  strings_Cut name "." = None →
  UseService name w
  = (w, Err (errors_Wrap ErrPackageUnselected please_set_package)).
Proof.
  intros Hsel Hcut. unfold UseService, M_bind.
  by rewrite Hsel, strings_SplitN_2, Hcut.
Qed.

Lemma UseService_unselected_dot (name prefix rest : string) (w : World) :
  currentPackage (e_state w.2) = "" →
  strings_Cut name "." = Some (prefix, rest) →
  UseService name w
  = match UsePackage prefix w with
    | (w1, Ok _) =>
        match Services w1.2 with
        | Ok services =>
            match scan entity.Service_Name name services with
            | Some _ => ((w1.1, set_currentService name w1.2), Ok tt)
            | None => (w1, Err (errors_Wrapf ErrUnknownService "%s not found" [name]))
            end
        | Err err => (w1, Err (errors_Wrapf err "failed to get services" []))
        | Panic => (w1, Panic)
        end
    | (w1, Err err) => (w1, Err (errors_Wrapf err name []))
    | (w1, Panic) => (w1, Panic)
    end.
Proof.
  intros Hsel Hcut. unfold UseService, M_bind.
  rewrite Hsel, strings_SplitN_2, Hcut. cbn [String.eqb length Nat.eqb negb nth].
  unfold M_wrap. destruct (UsePackage prefix w) as [w1 [[]|err|]]; [|done..].
  cbn [Result_wrap]. unfold M_query.
  destruct (Services w1.2) as [svcs| |]; [|done..].
  cbn [Result_wrap]. by destruct (scan _ name svcs).
Qed.

(** After a successful [UsePackage] of a package with a name, [Services]
    returns the services of the package found. *)
Lemma Services_after_UsePackage (name : string) (e : Env) (p : entity.Package) :
  name ≠ "" →
  Services (set_cache_pkg name p (set_currentPackage name e))
  = Ok (entity.Services p).
Proof.
  intros Hname%String.eqb_neq. unfold Services, HasCurrentPackage. cbn.
  rewrite Hname. cbn. by rewrite lookup_insert_eq.
Qed.

Lemma Services_after_UsePackage_empty (e : Env) (p : entity.Package) :
  Services (set_cache_pkg "" p (set_currentPackage "" e))
  = Err ErrPackageUnselected.
Proof. done. Qed.

Lemma DSN_eq (e : Env) :
  DSN e
  = if decide (currentPackage (e_state e) = "") then ""
    else if decide (currentService (e_state e) = "")
         then currentPackage (e_state e)
         else currentPackage (e_state e) +:+ "." +:+ currentService (e_state e).
Proof.
  unfold DSN.
  destruct (String.eqb_spec (currentPackage (e_state e)) "") as [Hp|Hp];
    destruct (String.eqb_spec (currentService (e_state e)) "") as [Hs|Hs];
    repeat case_decide; done.
Qed.

End ServiceSelection.

Section ServiceSelectionProperties.
Context `{entity.Entities}.

(** C2, with the precondition that the prefix is not empty.  With no package
    selected, [UseService name] fails with [ErrPackageUnselected] and changes
    nothing when [name] has no ['.'].  When [name] is [prefix.rest], split at
    its first ['.'], it performs [UsePackage prefix] and hands on its failure
    (wrapped, same cause); when that succeeds and [prefix] is not empty, it
    looks [name] itself up among the services of the package found:
    if a service has exactly that name the current service becomes [name],
    otherwise the call fails with [ErrUnknownService], the package staying
    selected. *)
Theorem UseService_without_package (name : string) (w : World) :
  currentPackage (e_state w.2) = "" →
  ((∀ a b, name ≠ a +:+ "." +:+ b) →
   ∃ err, UseService name w = (w, Err err) ∧
          errors_Cause err = ErrPackageUnselected) ∧
  (∀ prefix rest,
     name = prefix +:+ "." +:+ rest → ¬ includes prefix "." →
     (∀ w1 err, UsePackage prefix w = (w1, Err err) →
        w1 = w ∧
        UseService name w = (w, Err (errors_Wrapf err name [])) ∧
        errors_Cause (errors_Wrapf err name []) = errors_Cause err ∧
        errors_Cause err = ErrUnknownPackage) ∧
     (∀ w1, UsePackage prefix w = (w1, Ok tt) → prefix ≠ "" →
        ∃ p, first_match entity.Name prefix (pkgs w.2) p ∧
             Services w1.2 = Ok (entity.Services p) ∧
             ((∃ s, first_match entity.Service_Name name (entity.Services p) s) →
              UseService name w = ((w1.1, set_currentService name w1.2), Ok tt) ∧
              currentService (e_state (UseService name w).1.2) = name) ∧
             (Forall (λ s, entity.Service_Name s ≠ name) (entity.Services p) →
              UseService name w
              = (w1, Err (errors_Wrapf ErrUnknownService "%s not found" [name])) ∧
              currentService (e_state (UseService name w).1.2)
              = currentService (e_state w.2)))).
Proof.
  intros Hsel. split.
  - intros Hnodot. eexists. split.
    + apply UseService_unselected_nodot; [done|]. by apply strings_Cut_None.
    + done.
  - intros prefix rest -> Hprefix.
    pose proof (strings_Cut_Some "." prefix rest Hprefix) as Hcut.
    change (prefix +:+ String "." rest) with (prefix +:+ "." +:+ rest) in Hcut.
    rewrite (UseService_unselected_dot _ _ _ _ Hsel Hcut).
    destruct (UsePackage_cases prefix w) as [(p & Hp & ->)|[Hnone ->]]; split.
    + by intros w1 err [=].
    + intros w1 [= <-] Hne. exists p. split; [done|]. cbn [fst snd].
      rewrite (Services_after_UsePackage _ _ _ Hne). split; [done|]. split.
      * intros [s ->%scan_Some]. done.
      * intros ->%scan_None. done.
    + by intros w1 err [= <- <-].
    + by intros w1 [=].
Qed.

(** What [UseService] does for the package of a proto file without a
    package clause: its name is the empty string, which is also the value
    of [currentPackage] that means no selection. *)
Lemma UseService_empty_prefix (rest : string) (w : World) (p : entity.Package) :
  currentPackage (e_state w.2) = "" →
  first_match entity.Name "" (pkgs w.2) p →
  UseService ("." +:+ rest) w
  = ((w.1, set_cache_pkg "" p (set_currentPackage "" w.2)),
     Err (errors_Wrapf ErrPackageUnselected "failed to get services" [])).
Proof.
  intros Hsel Hp%scan_Some.
  rewrite (UseService_unselected_dot _ "" rest _ Hsel).
  - by rewrite (UsePackage_found _ _ _ Hp).
  - apply (strings_Cut_Some "." "" rest). intros (pre & post & Heq).
    by destruct pre.
Qed.

Lemma UseService_Ok_inv (name : string) (w w' : World) :
  UseService name w = (w', Ok tt) →
  currentPackage (e_state w'.2) ≠ "" ∧
  currentService (e_state w'.2) = name ∧
  (currentPackage (e_state w.2) ≠ "" →
   currentPackage (e_state w'.2) = currentPackage (e_state w.2)) ∧
  (currentPackage (e_state w.2) = "" →
   ∃ rest, name = currentPackage (e_state w'.2) +:+ "." +:+ rest).
Proof.
  destruct (decide (currentPackage (e_state w.2) = "")) as [Hsel|Hsel].
  - destruct (strings_Cut name ".") as [[prefix rest]|] eqn:Hcut.
    + rewrite (UseService_unselected_dot _ _ _ _ Hsel Hcut).
      apply strings_Cut_inv in Hcut as [Hname _].
      destruct (UsePackage_cases prefix w) as [(p & Hp & ->)|[Hnone ->]]; [|done].
      destruct (decide (prefix = "")) as [->|Hne]; [done|]. cbn [fst snd].
      rewrite (Services_after_UsePackage _ _ _ Hne).
      destruct (scan _ name _); [|done].
      intros [= <-]. split_and!; [done..|]. intros _. by exists rest.
    + by rewrite (UseService_unselected_nodot _ _ Hsel Hcut).
  - rewrite (UseService_selected _ _ Hsel).
    destruct (Services w.2) as [svcs| |]; [|done..].
    destruct (scan _ name svcs); [|done].
    by intros [= <-].
Qed.

(** C1, as the code has it.  After a successful [UsePackage p] in a world
    with no service selected, [DSN] returns [p].  After a successful
    [UseService n] with the package [p] selected, [p] and [n] not empty,
    [DSN] returns [p.n]: [p.s] for [UseService "s"].  After a successful
    [UseService "p.s"] with no package selected ([p] without ['.']), the package
    selected is [p] and the service is the whole name, so [DSN] returns
    [p.p.s]. *)
Theorem DSN_after_selection (w : World) :
  (∀ p w1, UsePackage p w = (w1, Ok tt) →
     currentService (e_state w.2) = "" → DSN w1.2 = p) ∧
  (∀ p n w2, currentPackage (e_state w.2) = p → p ≠ "" → n ≠ "" →
     UseService n w = (w2, Ok tt) → DSN w2.2 = p +:+ "." +:+ n) ∧
  (∀ p s w2, currentPackage (e_state w.2) = "" → ¬ includes p "." →
     UseService (p +:+ "." +:+ s) w = (w2, Ok tt) →
     DSN w2.2 = p +:+ "." +:+ p +:+ "." +:+ s).
Proof.
  split_and!.
  - intros p w1 (p0 & _ & ->)%UsePackage_Ok_inv Hsvc.
    rewrite DSN_eq. cbn. rewrite Hsvc. repeat case_decide; congruence.
  - intros p n w2 Hp Hpne Hnne Huse.
    apply UseService_Ok_inv in Huse as (Hp2 & Hs2 & Hkeep & _).
    rewrite DSN_eq, Hs2, Hkeep by congruence.
    repeat case_decide; congruence.
  - intros p s w2 Hsel Hp Huse.
    pose proof Huse as (Hp2 & Hs2 & _ & Hsplit)%UseService_Ok_inv.
    destruct (Hsplit Hsel) as [rest Hrest].
    assert (currentPackage (e_state w2.2) = p) as Hcur.
    { pose proof (strings_Cut_Some "." p s Hp) as Hcut.
      change (p +:+ String "." s) with (p +:+ "." +:+ s) in Hcut.
      rewrite (UseService_unselected_dot _ _ _ _ Hsel Hcut) in Huse.
      destruct (UsePackage_cases p w) as [(p0 & _ & Hu)|[_ Hu]];
        rewrite Hu in Huse; [|done].
      destruct (Services _) as [svcs| |]; [|done..].
      destruct (scan _ _ svcs); [|done]. by injection Huse as <-. }
    rewrite DSN_eq, Hs2, Hcur. rewrite Hcur in Hp2.
    repeat case_decide; try congruence. by destruct p.
Qed.

End ServiceSelectionProperties.

(** ** Construction *)

Section Construction.
Context `{entity.Entities}.

Lemma Header_copy (h : entity.Header) :
  {| entity.Key := entity.Key h; entity.Val := entity.Val h |} = h.
Proof. by destruct h. Qed.

Lemma alloc_lookup (σ : Heap) (h : entity.Header) :
  (alloc σ h).1 !! (alloc σ h).2 = Some h.
Proof. unfold alloc. cbn [fst snd]. by apply list_lookup_middle. Qed.

Lemma AddHeader_allocated (h : loc) (hv : entity.Header) (w : World) :
  w.1 !! h = Some hv →
  AddHeader h w = ((w.1, upd_headers (<[entity.Key hv := h]>) w.2), Ok tt).
Proof. intros Hh. unfold AddHeader. by rewrite Hh. Qed.

(** The loop of [New] cannot panic: each pointer it stores was allocated one
    line before.  It touches the header map and nothing else of the
    receiver, and leaves the header objects that existed as they were. *)
Lemma New_loop_spec (defaultHeaders : list entity.Header) (w : World) :
  ∃ (σ' : Heap) (hm : gmap string loc),
    New_loop defaultHeaders w = ((σ', upd_headers (λ _, hm) w.2), Ok tt) ∧
    (∀ l hv, w.1 !! l = Some hv → σ' !! l = Some hv) ∧
    (headers_allocated w → headers_allocated (σ', upd_headers (λ _, hm) w.2)).
Proof.
  revert w. induction defaultHeaders as [|h rest IH]; intros [σ e].
  - exists σ, (headers (e_option e)). split_and!; [|done..].
    by destruct e as [? ? [?] ?].
  - cbn [New_loop alloc fst snd]. rewrite Header_copy. unfold M_bind.
    rewrite (AddHeader_allocated _ h); [|by apply list_lookup_middle].
    cbn [fst snd].
    destruct (IH (σ ++ [h], upd_headers (<[entity.Key h := length σ]>) e))
      as (σ' & hm & Heq & Hold & Halloc).
    exists σ', hm. split_and!; [exact Heq| |].
    + intros l hv Hl. apply Hold. cbn. by apply lookup_app_l_Some.
    + intros Hw. apply Halloc. unfold headers_allocated in *. cbn in *.
      apply map_Forall_insert_2.
      * exists h. by apply list_lookup_middle.
      * eapply map_Forall_impl; [exact Hw|]. cbn. intros _ l [hv Hl].
        exists hv. by apply lookup_app_l_Some.
Qed.

Lemma New_spec (pkgs0 : list entity.Package) (defaultHeaders : list entity.Header)
    (σ : Heap) :
  ∃ (σ' : Heap) (hm : gmap string loc),
    New pkgs0 defaultHeaders σ
    = ((σ', {| pkgs := pkgs0;
               e_state := {| currentPackage := ""; currentService := "" |};
               e_option := {| headers := hm |};
               e_cache := {| pkgList := []; pkg := ∅ |} |}), Ok tt) ∧
    headers_allocated (New pkgs0 defaultHeaders σ).1.
Proof.
  unfold New.
  destruct (New_loop_spec defaultHeaders
    (σ, {| pkgs := pkgs0;
           e_state := {| currentPackage := ""; currentService := "" |};
           e_option := {| headers := ∅ |};
           e_cache := {| pkgList := []; pkg := ∅ |} |}))
    as (σ' & hm & Heq & _ & Halloc).
  exists σ', hm. rewrite Heq. split; [done|]. apply Halloc.
  apply map_Forall_empty.
Qed.

Lemma NewFromServices_spec
    (svcs : list entity.Service) (msgs : list entity.Message)
    (defaultHeaders : list entity.Header) (σ : Heap) :
  let p := {| entity.Name := "default";
              entity.Services := svcs;
              entity.Messages := msgs |} in
  ∃ (σ' : Heap) (hm : gmap string loc),
    New [p] defaultHeaders σ
    = ((σ', {| pkgs := [p];
               e_state := {| currentPackage := ""; currentService := "" |};
               e_option := {| headers := hm |};
               e_cache := {| pkgList := []; pkg := ∅ |} |}), Ok tt) ∧
    NewFromServices svcs msgs defaultHeaders σ
    = ((σ', {| pkgs := [p];
               e_state := {| currentPackage := "default"; currentService := "" |};
               e_option := {| headers := hm |};
               e_cache := {| pkgList := []; pkg := {[ "default" := p ]} |} |}),
       Ok tt) ∧
    headers_allocated (NewFromServices svcs msgs defaultHeaders σ).1.
Proof.
  intros p. unfold NewFromServices. fold p.
  destruct (New_spec [p] defaultHeaders σ) as (σ' & hm & Heq & Halloc).
  rewrite Heq in Halloc |- *. exists σ', hm. split_and!; done.
Qed.

(** C6.  [NewFromServices] returns, without an error and without a panic, an
    environment whose catalog is the single package ["default"] holding the
    given services and messages, with that package selected ([UsePackage]
    on it has succeeded: it is in the cache) and no service selected. *)
Theorem NewFromServices_selects_default
    (svcs : list entity.Service) (msgs : list entity.Message)
    (defaultHeaders : list entity.Header) (σ : Heap) :
  let p := {| entity.Name := "default";
              entity.Services := svcs;
              entity.Messages := msgs |} in
  ∃ w : World,
    NewFromServices svcs msgs defaultHeaders σ = (w, Ok tt) ∧
    (∃ w0, New [p] defaultHeaders σ = (w0, Ok tt) ∧
           UsePackage "default" w0 = (w, Ok tt)) ∧
    pkgs w.2 = [p] ∧
    currentPackage (e_state w.2) = "default" ∧
    currentService (e_state w.2) = "" ∧
    pkg (e_cache w.2) = {[ "default" := p ]} ∧
    Services w.2 = Ok svcs ∧
    Messages w.2 = Ok msgs ∧
    DSN w.2 = "default".
Proof.
  intros p.
  destruct (NewFromServices_spec svcs msgs defaultHeaders σ)
    as (σ' & hm & Hnew & Heq & _).
  fold p in Hnew, Heq. eexists. split; [exact Heq|].
  split; [eexists; split; [exact Hnew|reflexivity]|].
  split_and!; reflexivity.
Qed.

End Construction.

(** ** Sorting *)

Section Sorting.
Context {A : Type} (less : A → A → bool).

Lemma sort_insert_Permutation (x : A) (sorted : list A) :
  sort_insert less x sorted ≡ₚ x :: sorted.
Proof.
  induction sorted as [|y sorted IH]; cbn [sort_insert]; [done|].
  destruct (less x y); [done|]. by rewrite IH, Permutation_swap.
Qed.

Lemma sort_fold_Permutation (xs sorted : list A) :
  fold_left (λ sorted x, sort_insert less x sorted) xs sorted ≡ₚ xs ++ sorted.
Proof.
  revert sorted. induction xs as [|x xs IH]; intros sorted; cbn [fold_left]; [done|].
  by rewrite IH, sort_insert_Permutation, <-Permutation_middle.
Qed.

Lemma sort_Slice_Permutation (xs : list A) : sort_Slice less xs ≡ₚ xs.
Proof. unfold sort_Slice. by rewrite sort_fold_Permutation, app_nil_r. Qed.

(** [less] is the strict part of the total preorder [R]. *)
Context (R : relation A).
Hypothesis less_R : ∀ x y, less x y = true → R x y.
Hypothesis not_less_R : ∀ x y, less x y = false → R y x.

Lemma sort_insert_HdRel (a x : A) (sorted : list A) :
  R a x → HdRel R a sorted → HdRel R a (sort_insert less x sorted).
Proof.
  intros Hax Hhd. destruct sorted as [|y sorted]; cbn [sort_insert].
  - by constructor.
  - destruct (less x y); constructor; [done|]. by inversion Hhd.
Qed.

Lemma sort_insert_Sorted (x : A) (sorted : list A) :
  Sorted R sorted → Sorted R (sort_insert less x sorted).
Proof.
  induction 1 as [|y sorted Hs IH Hhd]; cbn [sort_insert].
  - by repeat constructor.
  - destruct (less x y) eqn:Hxy.
    + repeat constructor; [done..|]. by apply less_R.
    + constructor; [done|]. apply sort_insert_HdRel; [|done].
      by apply not_less_R.
Qed.

Lemma sort_fold_Sorted (xs sorted : list A) :
  Sorted R sorted →
  Sorted R (fold_left (λ sorted x, sort_insert less x sorted) xs sorted).
Proof.
  revert sorted. induction xs as [|x xs IH]; intros sorted Hs; [done|].
  cbn [fold_left]. by apply IH, sort_insert_Sorted.
Qed.

Lemma sort_Slice_Sorted (xs : list A) : Sorted R (sort_Slice less xs).
Proof. apply sort_fold_Sorted. constructor. Qed.

End Sorting.

Lemma Header_less_le (a b : entity.Header) : Header_less a b = true → Header_le a b.
Proof.
  unfold Header_less, Header_le, String.le, String.ltb, String.leb.
  by destruct (String.compare _ _).
Qed.

Lemma Header_not_less_le (a b : entity.Header) :
  Header_less a b = false → Header_le b a.
Proof.
  unfold Header_less, Header_le, String.le, String.ltb, String.leb.
  rewrite (String.compare_antisym (entity.Key a) (entity.Key b)).
  by destruct (String.compare _ _).
Qed.

#[local] Instance Header_le_trans : Transitive Header_le.
Proof. intros a b c. unfold Header_le. apply transitivity. Qed.

Lemma Headers_sort_Sorted (hs : list entity.Header) :
  StronglySorted Header_le (sort_Slice Header_less hs).
Proof.
  apply Sorted_StronglySorted; [apply _|].
  apply sort_Slice_Sorted; [apply Header_less_le|apply Header_not_less_le].
Qed.

(** When no two headers have the same key, the sorted slice is determined:
    every slice with the same elements that is ascending by key is the one
    that [sort_Slice] returns, whatever the order of the input was. *)
Lemma sort_Slice_unique (hs hs' : list entity.Header) :
  NoDup (entity.Key <$> hs) →
  hs' ≡ₚ hs →
  StronglySorted Header_le hs' →
  hs' = sort_Slice Header_less hs.
Proof.
  intros Hnodup Hperm Hsorted.
  apply (StronglySorted_unique_strong Header_le); [|done|apply Headers_sort_Sorted|].
  - intros a b Ha Hb Hab Hba.
    assert (entity.Key a = entity.Key b) as Hkey
      by (by apply (anti_symm String.le)).
    rewrite Hperm in Ha. rewrite sort_Slice_Permutation in Hb.
    apply list_elem_of_lookup in Ha as [i Hi], Hb as [j Hj].
    assert (i = j) as ->; [|congruence].
    eapply NoDup_lookup; [exact Hnodup| |].
    + by rewrite list_lookup_fmap, Hi.
    + by rewrite list_lookup_fmap, Hj, Hkey.
  - by rewrite Hperm, sort_Slice_Permutation.
Qed.

Lemma sort_Slice_order_irrelevant (hs1 hs2 : list entity.Header) :
  NoDup (entity.Key <$> hs1) →
  hs2 ≡ₚ hs1 →
  sort_Slice Header_less hs2 = sort_Slice Header_less hs1.
Proof.
  intros Hnodup Hperm. apply sort_Slice_unique; [done| |].
  - by rewrite sort_Slice_Permutation.
  - apply Headers_sort_Sorted.
Qed.

(** ** The heap of header objects *)

Lemma deref_cons (σ : Heap) (l : loc) (ls : list loc) (h : entity.Header) :
  σ !! l = Some h → deref σ (l :: ls) = h :: deref σ ls.
Proof. intros Hl. unfold deref. cbn [omap list_omap]. by rewrite Hl. Qed.

Lemma deref_ext (σ τ : Heap) (ls : list loc) :
  Forall (λ l, τ !! l = σ !! l) ls → deref τ ls = deref σ ls.
Proof.
  induction 1 as [|l ls Hl _ IH]; [done|].
  unfold deref in *. cbn [omap list_omap]. by rewrite Hl, IH.
Qed.

Lemma deref_app_l (σ τ : Heap) (ls : list loc) :
  allocated σ ls → deref (σ ++ τ) ls = deref σ ls.
Proof.
  intros Hls. apply deref_ext. eapply Forall_impl; [exact Hls|].
  intros l [h Hl]. cbn. rewrite Hl. by apply lookup_app_l_Some.
Qed.

Lemma deref_length (σ : Heap) (ls : list loc) :
  allocated σ ls → length (deref σ ls) = length ls.
Proof.
  induction 1 as [|l ls [h Hl] _ IH]; [done|].
  rewrite (deref_cons _ _ _ _ Hl). cbn. by rewrite IH.
Qed.

Lemma deref_seq (σ τ : Heap) :
  deref (σ ++ τ) (seq (length σ) (length τ)) = τ.
Proof.
  revert σ. induction τ as [|h τ IH]; intros σ; [done|].
  cbn [length seq]. rewrite (deref_cons _ _ _ h) by by apply list_lookup_middle.
  f_equal. specialize (IH (σ ++ [h])).
  by rewrite <-app_assoc, length_app, Nat.add_1_r in IH.
Qed.

Lemma allocated_seq (σ τ : Heap) :
  allocated (σ ++ τ) (seq (length σ) (length τ)).
Proof.
  apply Forall_forall. intros l [Hlo Hhi]%elem_of_seq.
  apply lookup_lt_is_Some. rewrite length_app. lia.
Qed.

Lemma deref_sort_insert (σ : Heap) (x : loc) (hx : entity.Header) (sorted : list loc) :
  σ !! x = Some hx → allocated σ sorted →
  deref σ (sort_insert (Headers_less σ) x sorted)
  = sort_insert Header_less hx (deref σ sorted).
Proof.
  intros Hx. induction 1 as [|y sorted [hy Hy] _ IH]; cbn [sort_insert].
  - by rewrite (deref_cons _ _ _ _ Hx).
  - rewrite (deref_cons _ y _ _ Hy). cbn [sort_insert].
    unfold Headers_less at 1. rewrite Hx, Hy.
    destruct (Header_less hx hy).
    + by rewrite (deref_cons _ _ _ _ Hx), (deref_cons _ _ _ _ Hy).
    + by rewrite (deref_cons _ _ _ _ Hy), IH.
Qed.

Lemma deref_sort_fold (σ : Heap) (ls sorted : list loc) :
  allocated σ ls → allocated σ sorted →
  deref σ (fold_left (λ sorted x, sort_insert (Headers_less σ) x sorted) ls sorted)
  = fold_left (λ sorted x, sort_insert Header_less x sorted)
      (deref σ ls) (deref σ sorted).
Proof.
  intros Hls. revert sorted.
  induction Hls as [|l ls [h Hl] _ IH]; intros sorted Hsorted; [done|].
  rewrite (deref_cons _ _ _ _ Hl). cbn [fold_left].
  rewrite IH, (deref_sort_insert _ _ _ _ Hl Hsorted); [done|].
  unfold allocated. rewrite sort_insert_Permutation. by constructor.
Qed.

Lemma deref_sort_Slice (σ : Heap) (ls : list loc) :
  allocated σ ls →
  deref σ (sort_Slice (Headers_less σ) ls) = sort_Slice Header_less (deref σ ls).
Proof. intros Hls. by apply deref_sort_fold; [|constructor]. Qed.

Lemma client_stores_length (ws : list (loc * entity.Header)) (σ : Heap) :
  length (client_stores ws σ) = length σ.
Proof.
  revert σ. induction ws as [|[l h] ws IH]; intros σ; [done|].
  unfold client_stores in *. cbn [fold_left fst snd].
  rewrite IH. apply length_insert.
Qed.

Lemma client_stores_lookup_ne (ws : list (loc * entity.Header)) (σ : Heap) (l : loc) :
  Forall (λ lh, lh.1 ≠ l) ws → client_stores ws σ !! l = σ !! l.
Proof.
  intros Hws. revert σ. induction Hws as [|[l' h] ws Hne _ IH]; intros σ; [done|].
  unfold client_stores in *. cbn [fold_left fst snd].
  rewrite IH. by apply list_lookup_insert_ne.
Qed.

(** ** The header store *)

Section HeaderStore.
Context `{entity.Entities}.

Lemma headers_allocated_list (w : World) :
  headers_allocated w ↔ allocated w.1 (map_to_list (headers (e_option w.2))).*2.
Proof.
  unfold headers_allocated, allocated.
  rewrite map_Forall_to_list, Forall_fmap. apply Forall_proper; [|done].
  by intros [k l].
Qed.

Lemma Headers_range_spec (kvs : list (string * loc)) (acc : list loc) (σ : Heap)
    (e : Env) :
  allocated σ kvs.*2 →
  Headers_range kvs acc (σ, e)
  = ((σ ++ deref σ kvs.*2, e), Ok (acc ++ seq (length σ) (length kvs))).
Proof.
  revert acc σ. induction kvs as [|[k v] kvs IH]; intros acc σ Hkvs.
  - cbn. by rewrite !app_nil_r.
  - apply Forall_cons in Hkvs as [[h Hv] Hkvs]. cbn [fst snd] in Hv.
    cbn [Headers_range fst snd alloc]. rewrite Hv, Header_copy.
    rewrite IH.
    + rewrite deref_app_l by done. cbn [fmap list_fmap snd].
      rewrite (deref_cons _ _ _ _ Hv), length_app, Nat.add_1_r.
      cbn [length seq]. by rewrite <-!app_assoc.
    + eapply Forall_impl; [exact Hkvs|]. intros l [hl Hl]. exists hl.
      by apply lookup_app_l_Some.
Qed.

Lemma Range_order_stored (w : World) (range : list (string * nat)) :
  Range_order w range →
  Forall (λ kl, headers (e_option w.2) !! kl.1 = Some kl.2) range ∧
  deref w.1 range.*2 ≡ₚ stored_headers w ∧
  (headers_allocated w → allocated w.1 range.*2).
Proof.
  intros Hrange. unfold Range_order in Hrange. split_and!.
  - apply Forall_forall. intros [key l] Hkl. rewrite Hrange in Hkl.
    by apply elem_of_map_to_list in Hkl.
  - unfold stored_headers, deref. by rewrite Hrange.
  - intros Halloc%headers_allocated_list. unfold allocated. by rewrite Hrange.
Qed.

(** [Headers] returns: it allocates one object per stored header, after the
    objects that exist, and the objects its result points to are the stored
    headers, as visited, sorted by key. *)
Lemma Headers_spec (w : World) (range : list (string * nat)) :
  headers_allocated w → Range_order w range →
  ∃ ls : list nat,
    Headers range w = ((w.1 ++ deref w.1 range.*2, w.2), Ok ls) ∧
    ls ≡ₚ seq (length w.1) (length (stored_headers w)) ∧
    deref (w.1 ++ deref w.1 range.*2) ls
    = sort_Slice Header_less (deref w.1 range.*2) ∧
    deref w.1 range.*2 ≡ₚ stored_headers w.
Proof.
  intros Halloc Hrange.
  destruct (Range_order_stored w range Hrange) as (_ & Hvperm & Hlist).
  specialize (Hlist Halloc). destruct w as [σ e]. cbn [fst snd] in *.
  unfold Headers, M_bind.
  rewrite (Headers_range_spec _ _ _ _ Hlist). unfold M_ret. cbn [fst snd app].
  set (vals := deref σ range.*2) in *.
  assert (length range = length vals) as ->.
  { unfold vals. by rewrite (deref_length _ _ Hlist), length_fmap. }
  eexists. split; [reflexivity|]. split_and!; [|..|done].
  - rewrite sort_Slice_Permutation. by rewrite (Permutation_length Hvperm).
  - rewrite deref_sort_Slice by apply allocated_seq. by rewrite deref_seq.
Qed.

Lemma Header_le_not_less (a b : entity.Header) :
  Header_le a b → Header_less b a = false.
Proof.
  unfold Header_less, Header_le, String.le, String.ltb, String.leb.
  rewrite (String.compare_antisym (entity.Key a) (entity.Key b)).
  by destruct (String.compare _ _).
Qed.

Lemma sort_insert_last (x : entity.Header) (sorted : list entity.Header) :
  Forall (λ y, Header_le y x) sorted →
  sort_insert Header_less x sorted = sorted ++ [x].
Proof.
  induction 1 as [|y sorted Hy _ IH]; [done|]. cbn [sort_insert].
  by rewrite (Header_le_not_less _ _ Hy), IH.
Qed.

(** A slice that is ascending by key is left as it is. *)
Lemma sort_Slice_sorted (hs : list entity.Header) :
  StronglySorted Header_le hs → sort_Slice Header_less hs = hs.
Proof.
  unfold sort_Slice.
  assert (∀ sorted, StronglySorted Header_le (sorted ++ hs) →
          fold_left (λ sorted x, sort_insert Header_less x sorted) hs sorted
          = sorted ++ hs) as Hfold; [|apply (Hfold [])].
  induction hs as [|x hs IH]; intros sorted Hsorted; cbn [fold_left].
  - by rewrite app_nil_r.
  - rewrite sort_insert_last.
    + rewrite IH; rewrite <-app_assoc; done.
    + apply Forall_forall. intros y Hy.
      apply (StronglySorted_app_1_elem_of _ _ _ _ _ Hsorted Hy). by left.
Qed.

(** The orders of [Range] give [Headers] every result that the library
    allows: each slice that holds the stored headers in ascending order of
    key, whatever the order among equal keys, is returned for some order. *)
Lemma Headers_every_sorted_order (w : World) (hs : list entity.Header) :
  headers_allocated w →
  hs ≡ₚ stored_headers w →
  StronglySorted Header_le hs →
  ∃ (range : list (string * nat)) (ls : list nat),
    Range_order w range ∧
    Headers range w = ((w.1 ++ deref w.1 range.*2, w.2), Ok ls) ∧
    deref (w.1 ++ deref w.1 range.*2) ls = hs.
Proof.
  intros Halloc Hperm Hsorted.
  set (read := λ kl : string * nat,
         default {| entity.Key := ""; entity.Val := "" |} (w.1 !! kl.2)).
  assert (∀ kvs : list (string * nat), allocated w.1 kvs.*2 →
          deref w.1 kvs.*2 = read <$> kvs) as Hread.
  { induction kvs as [|[key l] kvs IH]; [done|].
    rewrite fmap_cons. intros [[hv Hl] Hkvs]%Forall_cons. cbn [snd] in Hl.
    rewrite (deref_cons _ _ _ _ Hl), fmap_cons, IH by done.
    unfold read at 2. cbn [snd]. by rewrite Hl. }
  pose proof Halloc as Hlist%headers_allocated_list.
  unfold stored_headers in Hperm. rewrite (Hread _ Hlist) in Hperm.
  destruct (Permutation_map_inv read _ Hperm) as (range & -> & Hrange).
  assert (Range_order w range) as Horder by (unfold Range_order; by symmetry).
  destruct (Headers_spec w range Halloc Horder) as (ls & Heq & _ & Hvals & _).
  exists range, ls. split_and!; [done..|].
  destruct (Range_order_stored w range Horder) as (_ & _ & Hlist').
  rewrite Hvals, (Hread _ (Hlist' Halloc)). by apply sort_Slice_sorted.
Qed.

(** C7.  Whatever the store holds and in whatever order [Range] visits it,
    [Headers] returns pointers to objects that carry the stored headers
    (same [Key] and [Val]) in ascending order of [Key].  The objects are
    new: none existed before the call, no two returned pointers are equal,
    none is a stored pointer, and the call left the objects that existed as
    they were.  So, after any sequence [ws] of writes through the returned
    pointers, every stored header reads as before, and a later call of
    [Headers] returns, for each order of [Range], exactly what it returns
    without those writes: the stored headers in ascending order of key, which
    is the slice of the first call when no two stored headers have the same
    key, and that slice up to the order of equal keys otherwise.  (The
    returned slice is a value of the caller: the receiver holds no reference
    to it, and [Headers] assigns nothing to the receiver.) *)
Theorem Headers_sorted_fresh_copies (w : World) (range : list (string * nat)) :
  headers_allocated w →
  Range_order w range →
  ∃ (ls : list nat) (σ' : list entity.Header),
    Headers range w = ((σ', w.2), Ok ls) ∧
    StronglySorted Header_le (deref σ' ls) ∧
    deref σ' ls ≡ₚ stored_headers w ∧
    length (deref σ' ls) = length ls ∧
    (∀ hv, hv ∈ deref σ' ls ↔ ∃ key, stored_header w key = Some hv) ∧
    Forall (λ l, w.1 !! l = None) ls ∧
    NoDup ls ∧
    (∀ key l, headers (e_option w.2) !! key = Some l → l ∉ ls) ∧
    (∀ l hv, w.1 !! l = Some hv → σ' !! l = Some hv) ∧
    ∀ ws : list (nat * entity.Header),
      Forall (λ lh, lh.1 ∈ ls) ws →
      let w1 : World := (σ', w.2) in
      let w2 : World := (client_stores ws σ', w.2) in
      (∀ key, stored_header w2 key = stored_header w key) ∧
      ∀ range2 : list (string * nat),
        Range_order w2 range2 →
        ∃ (ls2 : list nat) (σ2 : list entity.Header),
          Headers range2 w2 = ((σ2, w.2), Ok ls2) ∧
          (∃ (ls1 : list nat) (σ1 : list entity.Header),
             Headers range2 w1 = ((σ1, w.2), Ok ls1) ∧
             deref σ2 ls2 = deref σ1 ls1) ∧
          StronglySorted Header_le (deref σ2 ls2) ∧
          deref σ2 ls2 ≡ₚ deref σ' ls ∧
          (NoDup (entity.Key <$> stored_headers w) →
           deref σ2 ls2 = deref σ' ls).
Proof.
  intros Halloc Hrange.
  destruct (Headers_spec w range Halloc Hrange)
    as (ls & Heq & Hperm & Hvals & Hvperm).
  exists ls, (w.1 ++ deref w.1 range.*2).
  assert (∀ key l, headers (e_option w.2) !! key = Some l → l < length w.1) as Hold.
  { intros key l Hl. apply lookup_lt_is_Some. by apply (Halloc key l). }
  assert (∀ l : nat, l ∈ ls → (length w.1 ≤ l)%nat) as Hnew.
  { intros l Hl. rewrite Hperm in Hl. by apply elem_of_seq in Hl as [? _]. }
  split_and!.
  - done.
  - rewrite Hvals. apply Headers_sort_Sorted.
  - by rewrite Hvals, sort_Slice_Permutation.
  - rewrite Hvals, Hperm, length_seq.
    apply Permutation_length. by rewrite sort_Slice_Permutation.
  - intros hv. rewrite Hvals, sort_Slice_Permutation, Hvperm.
    unfold stored_headers, deref, stored_header. rewrite list_elem_of_omap. split.
    + intros (l & ([key l'] & -> & Hkl%elem_of_map_to_list)%list_elem_of_fmap & Hl).
      exists key. apply bind_Some. exists l'. split; [exact Hkl|exact Hl].
    + intros (key & Hkey). destruct (headers _ !! key) as [l|] eqn:Hl; [|done].
      exists l. split; [|done]. apply list_elem_of_fmap. exists (key, l).
      split; [done|]. by apply elem_of_map_to_list.
  - apply Forall_forall. intros l Hl%Hnew. by apply lookup_ge_None_2.
  - rewrite Hperm. apply NoDup_seq.
  - intros key l Hl%Hold Hin%Hnew. lia.
  - intros l hv Hl. by apply lookup_app_l_Some.
  - intros ws Hws w1 w2.
    assert (∀ key l, headers (e_option w.2) !! key = Some l →
            w1.1 !! l = w.1 !! l) as Hsame1.
    { intros key l Hl. unfold w1. cbn [fst]. apply lookup_app_l. by eapply Hold. }
    assert (∀ key l, headers (e_option w.2) !! key = Some l →
            w2.1 !! l = w.1 !! l) as Hsame2.
    { intros key l Hl. rewrite <-(Hsame1 key l Hl). unfold w2, w1. cbn [fst].
      apply client_stores_lookup_ne.
      eapply Forall_impl; [exact Hws|]. intros [l' h'] Hin%Hnew Heq'.
      apply Hold in Hl. cbn [fst] in Hin, Heq'. lia. }
    split.
    + intros key. unfold stored_header. cbn [snd].
      destruct (headers _ !! key) as [l|] eqn:Hl; [|done]. by apply (Hsame2 key).
    + intros range2 Hrange2.
      assert (Range_order w range2) as Hrange2' by done.
      destruct (Range_order_stored w range2 Hrange2') as (Hin2 & Hvperm2 & _).
      assert (deref w1.1 range2.*2 = deref w.1 range2.*2) as Hread1.
      { apply deref_ext, Forall_fmap. eapply Forall_impl; [exact Hin2|].
        intros [key l] Hl. by apply (Hsame1 key). }
      assert (deref w2.1 range2.*2 = deref w.1 range2.*2) as Hread2.
      { apply deref_ext, Forall_fmap. eapply Forall_impl; [exact Hin2|].
        intros [key l] Hl. by apply (Hsame2 key). }
      destruct (Headers_spec w1 range2) as (ls1 & Heq1 & _ & Hvals1 & _); [|done|].
      { intros key l Hl. change (is_Some (w1.1 !! l)).
        rewrite (Hsame1 key l Hl). by apply (Halloc key l). }
      destruct (Headers_spec w2 range2) as (ls2 & Heq2 & _ & Hvals2 & _); [|done|].
      { intros key l Hl. change (is_Some (w2.1 !! l)).
        rewrite (Hsame2 key l Hl). by apply (Halloc key l). }
      exists ls2, (w2.1 ++ deref w2.1 range2.*2). split; [done|].
      rewrite Hvals2, Hread2, Hvals. split_and!.
      * exists ls1, (w1.1 ++ deref w1.1 range2.*2). split; [done|].
        by rewrite Hvals1, Hread1.
      * apply Headers_sort_Sorted.
      * by rewrite !sort_Slice_Permutation, Hvperm2, Hvperm.
      * intros Hnodup. apply sort_Slice_order_irrelevant.
        -- by rewrite Hvperm.
        -- by rewrite Hvperm2, Hvperm.
Qed.


End HeaderStore.

(** ** Invariants of the reachable worlds *)

Section Invariants.
Context `{entity.Entities}.

Lemma Services_Ok_selected (e : Env) (svcs : list entity.Service) :
  Services e = Ok svcs → currentPackage (e_state e) ≠ "".
Proof.
  unfold Services, HasCurrentPackage.
  by destruct (String.eqb_spec (currentPackage (e_state e)) "").
Qed.

(** What a call of [UsePackage] leaves behind. *)
Lemma UsePackage_step (name : string) (w : World) :
  (UsePackage name w).1 = w ∨
  ∃ p, first_match entity.Name name (pkgs w.2) p ∧
       (UsePackage name w).1
       = (w.1, set_cache_pkg name p (set_currentPackage name w.2)).
Proof.
  destruct (UsePackage_cases name w) as [(p & Hp & ->)|[_ ->]]; [right|by left].
  by exists p.
Qed.

(** What a call of [UseService] leaves behind: the world [w1] that its
    [UsePackage], if any, left, with the current service set or not; it is
    set only with a package selected. *)
Lemma UseService_step (name : string) (w : World) :
  ∃ w1 : World,
    (w1 = w ∨ ∃ prefix, w1 = (UsePackage prefix w).1) ∧
    ((UseService name w).1 = w1 ∨
     ((UseService name w).1 = (w1.1, set_currentService name w1.2) ∧
      currentPackage (e_state w1.2) ≠ "")).
Proof.
  destruct (decide (currentPackage (e_state w.2) = "")) as [Hsel|Hsel].
  - destruct (strings_Cut name ".") as [[prefix rest]|] eqn:Hcut.
    + exists (UsePackage prefix w).1. split; [right; by exists prefix|].
      rewrite (UseService_unselected_dot _ _ _ _ Hsel Hcut).
      destruct (UsePackage prefix w) as [w1 [[]|err|]]; [|by left..].
      destruct (Services w1.2) as [svcs| |] eqn:Hsvcs; [|by left..].
      destruct (scan _ name svcs); [right|by left].
      split; [done|]. by eapply Services_Ok_selected.
    + exists w. split; [by left|].
      rewrite (UseService_unselected_nodot _ _ Hsel Hcut). by left.
  - exists w. split; [by left|]. rewrite (UseService_selected _ _ Hsel).
    destruct (Services w.2) as [svcs| |]; [|by left..].
    destruct (scan _ name svcs); [by right|by left].
Qed.

(** The calls on the header store and the client's own steps leave the
    catalog, the selection and the cache alone. *)
Lemma header_steps_frame (w : World) :
  (∀ h, (AddHeader h w).1.2 = w.2 ∨
        ∃ f, (AddHeader h w).1.2 = upd_headers f w.2) ∧
  (∀ key, (RemoveHeader key w).1.2 = upd_headers (delete key) w.2) ∧
  (∀ range, (Headers range w).1.2 = w.2).
Proof.
  split_and!.
  - intros h. unfold AddHeader. destruct (w.1 !! h); [right|by left].
    by eexists.
  - done.
  - intros range. unfold Headers, M_bind.
    assert (∀ kvs acc w0, (Headers_range kvs acc w0).1.2 = w0.2) as Hrange.
    { induction kvs as [|[k v] kvs IH]; intros acc w0; [done|].
      cbn [Headers_range]. destruct (w0.1 !! v); [|done].
      cbn [alloc]. by rewrite IH. }
    specialize (Hrange range [] w).
    by destruct (Headers_range _ _ w) as [w1 [ls|err|]].
Qed.

(** The invariants of one step. *)
Lemma step_invariants (w w' : World) :
  step w w' →
  pkgs w'.2 = pkgs w.2 ∧
  ((currentPackage (e_state w.2) ≠ "" →
    is_Some (pkg (e_cache w.2) !! currentPackage (e_state w.2))) →
   currentPackage (e_state w'.2) ≠ "" →
   is_Some (pkg (e_cache w'.2) !! currentPackage (e_state w'.2))) ∧
  (Forall (λ p, entity.Name p ≠ "") (pkgs w.2) →
   (currentService (e_state w.2) ≠ "" → currentPackage (e_state w.2) ≠ "") →
   currentService (e_state w'.2) ≠ "" → currentPackage (e_state w'.2) ≠ "").
Proof.
  assert (∀ name (w0 : World) p, first_match entity.Name name (pkgs w0.2) p →
          Forall (λ p, entity.Name p ≠ "") (pkgs w0.2) → name ≠ "") as Hnamed.
  { intros name w0 p (before & after & Hpkgs & <- & _) Hall.
    rewrite Hpkgs in Hall. by apply Forall_app in Hall as [_ [? _]%Forall_cons]. }
  assert (∀ name (w0 : World),
    let w1 := (UsePackage name w0).1 in
    pkgs w1.2 = pkgs w0.2 ∧
    ((currentPackage (e_state w0.2) ≠ "" →
      is_Some (pkg (e_cache w0.2) !! currentPackage (e_state w0.2))) →
     currentPackage (e_state w1.2) ≠ "" →
     is_Some (pkg (e_cache w1.2) !! currentPackage (e_state w1.2))) ∧
    (Forall (λ p, entity.Name p ≠ "") (pkgs w0.2) →
     (currentService (e_state w0.2) ≠ "" → currentPackage (e_state w0.2) ≠ "") →
     currentService (e_state w1.2) ≠ "" → currentPackage (e_state w1.2) ≠ ""))
    as Huse.
  { intros name w0 w1. unfold w1.
    destruct (UsePackage_step name w0) as [->|(p & Hp & ->)]; [done|].
    cbn. split_and!; [done| |].
    - intros _ _. rewrite lookup_insert_eq. by eexists.
    - intros Hall _ _. by eapply Hnamed. }
  destruct 1 as [name w|name w|h w|key w|range w Hrange|hv w|l hv w].
  - apply Huse.
  - destruct (UseService_step name w) as (w1 & Hw1 & Hw').
    assert (pkgs w1.2 = pkgs w.2 ∧
      ((currentPackage (e_state w.2) ≠ "" →
        is_Some (pkg (e_cache w.2) !! currentPackage (e_state w.2))) →
       currentPackage (e_state w1.2) ≠ "" →
       is_Some (pkg (e_cache w1.2) !! currentPackage (e_state w1.2))) ∧
      (Forall (λ p, entity.Name p ≠ "") (pkgs w.2) →
       (currentService (e_state w.2) ≠ "" → currentPackage (e_state w.2) ≠ "") →
       currentService (e_state w1.2) ≠ "" → currentPackage (e_state w1.2) ≠ ""))
      as (Hpk & Hcache & Horder).
    { destruct Hw1 as [->|[prefix ->]]; [done|apply Huse]. }
    destruct Hw' as [->|[-> Hsel]]; [done|]. cbn. split_and!; [done| |done].
    intros Hw _. by apply Hcache.
  - destruct (header_steps_frame w) as (Hadd & _ & _).
    by destruct (Hadd h) as [->|[f ->]].
  - destruct (header_steps_frame w) as (_ & Hrm & _). by rewrite Hrm.
  - destruct (header_steps_frame w) as (_ & _ & Hhd). by rewrite Hhd.
  - done.
  - done.
Qed.

Lemma reachable_invariants (w : World) :
  reachable w →
  (currentPackage (e_state w.2) ≠ "" →
   is_Some (pkg (e_cache w.2) !! currentPackage (e_state w.2))) ∧
  (Forall (λ p, entity.Name p ≠ "") (pkgs w.2) →
   currentService (e_state w.2) ≠ "" → currentPackage (e_state w.2) ≠ "").
Proof.
  induction 1 as [pkgs0 hs σ|svcs msgs hs σ w Hnew|w w' _ [IHc IHo] Hstep].
  - destruct (New_spec pkgs0 hs σ) as (σ' & hm & -> & _). by cbn.
  - destruct (NewFromServices_spec svcs msgs hs σ) as (σ' & hm & _ & Heq & _).
    rewrite Hnew in Heq. injection Heq as ->. cbn. split; [|done].
    intros _. rewrite lookup_singleton_eq. by eexists.
  - destruct (step_invariants _ _ Hstep) as (Hpk & Hc & Ho).
    split; [by apply Hc|]. rewrite Hpk. intros Hall. by apply Ho, IHo.
Qed.

End Invariants.

Section Safety.
Context `{entity.Entities}.

(** With the cache entry of the current package in place, no query reads a
    missing entry. *)
Lemma queries_do_not_panic (e : Env) :
  (currentPackage (e_state e) ≠ "" →
   is_Some (pkg (e_cache e) !! currentPackage (e_state e))) →
  Services e ≠ Panic ∧ Messages e ≠ Panic ∧ RPCs e ≠ Panic ∧
  ∀ name, Service name e ≠ Panic ∧ Message name e ≠ Panic ∧ RPC name e ≠ Panic.
Proof.
  intros Hcache.
  assert (Services e ≠ Panic) as Hs.
  { unfold Services, HasCurrentPackage.
    destruct (String.eqb_spec (currentPackage (e_state e)) "") as [|Hsel]; [done|].
    by destruct (Hcache Hsel) as [p ->]. }
  assert (Messages e ≠ Panic) as Hm.
  { unfold Messages, HasCurrentPackage.
    destruct (String.eqb_spec (currentPackage (e_state e)) "") as [|Hsel]; [done|].
    by destruct (Hcache Hsel) as [p ->]. }
  assert (∀ name, Service name e ≠ Panic) as Hsvc.
  { intros name. unfold Service. destruct (Services e) as [svcs| |]; [|done..].
    cbn. by destruct (scan _ name svcs). }
  assert (RPCs e ≠ Panic) as Hrpcs.
  { unfold RPCs. destruct (negb (HasCurrentService e)); [done|].
    specialize (Hsvc (currentService (e_state e))).
    by destruct (Service _ e). }
  split_and!; [done..|]. intros name. split_and!; [done| |].
  - unfold Message. destruct (Messages e) as [msgs| |]; [|done..].
    cbn. by destruct (scan _ name msgs).
  - unfold RPC. destruct (RPCs e) as [rpcs| |]; [|done..].
    cbn. by destruct (scan _ name rpcs).
Qed.

Lemma UseService_does_not_panic (name : string) (w : World) :
  (currentPackage (e_state w.2) ≠ "" →
   is_Some (pkg (e_cache w.2) !! currentPackage (e_state w.2))) →
  (UseService name w).2 ≠ Panic.
Proof.
  intros Hcache.
  destruct (decide (currentPackage (e_state w.2) = "")) as [Hsel|Hsel].
  - destruct (strings_Cut name ".") as [[prefix rest]|] eqn:Hcut.
    + rewrite (UseService_unselected_dot _ _ _ _ Hsel Hcut).
      destruct (UsePackage_cases prefix w) as [(p & Hp & ->)|[_ ->]]; [|done].
      cbn [fst snd]. destruct (decide (prefix = "")) as [->|Hne]; [done|].
      rewrite (Services_after_UsePackage _ _ _ Hne).
      by destruct (scan _ name _).
    + by rewrite (UseService_unselected_nodot _ _ Hsel Hcut).
  - rewrite (UseService_selected _ _ Hsel).
    destruct (queries_do_not_panic w.2 Hcache) as (Hs & _).
    destruct (Services w.2) as [svcs| |]; [|done..].
    by destruct (scan _ name svcs).
Qed.

(** C9, for a catalog in which every package has a name.  In every
    reachable world of such a catalog, a selected service comes with a
    selected package. *)
Theorem selection_order_invariant (w : World) :
  reachable w →
  Forall (λ p, entity.Name p ≠ "") (pkgs w.2) →
  currentService (e_state w.2) ≠ "" →
  currentPackage (e_state w.2) ≠ "".
Proof. intros Hw. by apply reachable_invariants. Qed.

(** C10.  In every reachable world with a package selected, the cache holds
    the entry of that package, so that [Services] and [Messages] return its
    lists; and no query and no selection, in any reachable world, ends in the
    panic of a read through a missing entry. *)
Theorem cache_holds_current_package (w : World) :
  reachable w →
  (currentPackage (e_state w.2) ≠ "" →
   ∃ p, pkg (e_cache w.2) !! currentPackage (e_state w.2) = Some p ∧
        Services w.2 = Ok (entity.Services p) ∧
        Messages w.2 = Ok (entity.Messages p)) ∧
  Services w.2 ≠ Panic ∧ Messages w.2 ≠ Panic ∧ RPCs w.2 ≠ Panic ∧
  (∀ name, Service name w.2 ≠ Panic ∧ Message name w.2 ≠ Panic ∧
           RPC name w.2 ≠ Panic) ∧
  (∀ name, (UsePackage name w).2 ≠ Panic ∧ (UseService name w).2 ≠ Panic).
Proof.
  intros [Hcache _]%reachable_invariants.
  destruct (queries_do_not_panic w.2 Hcache) as (Hs & Hm & Hr & Hq).
  split_and!; try done.
  - intros Hsel. destruct (Hcache Hsel) as [p Hp]. exists p.
    apply String.eqb_neq in Hsel.
    unfold Services, Messages, HasCurrentPackage. by rewrite Hsel, Hp.
  - intros name. split.
    + by destruct (UsePackage_cases name w) as [(p & _ & ->)|[_ ->]].
    + by apply UseService_does_not_panic.
Qed.

(** The hypothesis of [Headers_sorted_fresh_copies] holds in every reachable
    world: a stored pointer was allocated when it was stored, and objects
    are never freed. *)
Lemma reachable_headers_allocated (w : World) :
  reachable w → headers_allocated w.
Proof.
  induction 1 as [pkgs0 hs σ|svcs msgs hs σ w Hnew|w w' _ IH Hstep].
  - by destruct (New_spec pkgs0 hs σ) as (σ' & hm & _ & Halloc).
  - destruct (NewFromServices_spec svcs msgs hs σ) as (σ' & hm & _ & _ & Halloc).
    by rewrite Hnew in Halloc.
  - destruct Hstep as [name w|name w|h w|key w|range w Hrange|hv w|l hv w].
    + by destruct (UsePackage_step name w) as [->|(p & _ & ->)].
    + destruct (UseService_step name w) as (w1 & Hw1 & Hw').
      assert (headers_allocated w1) as Hw1a.
      { destruct Hw1 as [->|[prefix ->]]; [done|].
        by destruct (UsePackage_step prefix w) as [->|(p & _ & ->)]. }
      by destruct Hw' as [->|[-> _]].
    + unfold AddHeader. destruct (w.1 !! h) as [hv|] eqn:Hh; [|done].
      apply map_Forall_insert_2; [by eexists|done].
    + by apply map_Forall_delete.
    + destruct (Headers_spec w range IH Hrange) as (ls & -> & _).
      eapply map_Forall_impl; [exact IH|]. cbn. intros _ l [hv Hl].
      exists hv. by apply lookup_app_l_Some.
    + eapply map_Forall_impl; [exact IH|]. cbn. intros _ l' [hv' Hl].
      exists hv'. by apply lookup_app_l_Some.
    + eapply map_Forall_impl; [exact IH|]. cbn. intros _ l' Hl.
      apply lookup_lt_is_Some. cbn [fst]. rewrite length_insert.
      by apply lookup_lt_is_Some.
Qed.

End Safety.

(** * The properties on the concrete catalog *)

Section Examples.
#[local] Existing Instance Demo.entities.
Import Demo.

(** The scenario of the specification: [greet], [Greeter], [SayHello]. *)
Example greet_scenario :
  (UsePackage "greet" start).2 = Ok tt ∧
  DSN at_greet.2 = "greet" ∧
  (UseService "Greeter" at_greet).2 = Ok tt ∧
  DSN at_Greeter.2 = "greet.Greeter" ∧
  RPC "SayHello" at_Greeter.2 = Ok SayHello ∧
  RPC "Missing" at_Greeter.2
  = Err (errors_Wrapf ErrInvalidRPCName "%s not found" ["Missing"]) ∧
  Error (errors_Wrapf ErrInvalidRPCName "%s not found" ["Missing"])
  = Some "Missing not found: invalid RPC name".
Proof. by vm_compute. Qed.

(** C1 fails as stated.  With [greet] selected, [UseService "greet.Greeter"]
    succeeds (the package has a service of that full name) and [DSN] then
    returns ["greet.greet.Greeter"]; the same from the world with no package
    selected.  And [UsePackage "other"] with [Greeter] selected succeeds with
    [DSN] returning ["other.Greeter"]. *)
Lemma DSN_after_selection_counterexample :
  ((UsePackage "greet" start).2 = Ok tt ∧
   (UseService "greet.Greeter" at_greet).2 = Ok tt ∧
   DSN (UseService "greet.Greeter" at_greet).1.2 = "greet.greet.Greeter" ∧
   DSN (UseService "greet.Greeter" at_greet).1.2 ≠ "greet.Greeter") ∧
  (currentPackage (e_state start.2) = "" ∧
   (UseService "greet.Greeter" start).2 = Ok tt ∧
   DSN (UseService "greet.Greeter" start).1.2 ≠ "greet.Greeter") ∧
  ((UsePackage "other" at_Greeter).2 = Ok tt ∧
   DSN (UsePackage "other" at_Greeter).1.2 = "other.Greeter" ∧
   DSN (UsePackage "other" at_Greeter).1.2 ≠ "other").
Proof. by vm_compute. Qed.

Lemma DSN_after_selection_witness :
  DSN at_greet.2 = "greet" ∧
  DSN at_Greeter.2 = "greet.Greeter" ∧
  DSN (UseService "greet.Greeter" start).1.2 = "greet.greet.Greeter".
Proof.
  split_and!.
  - apply (proj1 (DSN_after_selection start) "greet" at_greet);
      by vm_compute.
  - apply (proj1 (proj2 (DSN_after_selection at_greet)) "greet" "Greeter" at_Greeter);
      by vm_compute.
  - apply (proj2 (proj2 (DSN_after_selection start)) "greet" "Greeter"
             (UseService "greet.Greeter" start).1).
    + by vm_compute.
    + by apply (strings_Cut_includes "."); vm_compute.
    + by vm_compute.
Defined.

(** C2 fails as stated.  With no package selected, [UseService ".Echo"]
    splits off the empty prefix; [UsePackage ""] succeeds, for the catalog
    has the package without a name, and that package owns a service named
    [".Echo"] exactly; yet the call fails, with [ErrPackageUnselected], and
    the current service is not set. *)
Lemma UseService_without_package_counterexample :
  currentPackage (e_state start.2) = "" ∧
  strings_Cut ".Echo" "." = Some ("", "Echo") ∧
  (UsePackage "" start).2 = Ok tt ∧
  scan entity.Name "" catalog = Some unnamed ∧
  scan service_name ".Echo" (entity.Services unnamed)
  = Some (mkService ".Echo" [] 0) ∧
  (UseService ".Echo" start).2
  = Err (errors_Wrapf ErrPackageUnselected "failed to get services" []) ∧
  (UseService ".Echo" start).2 ≠ Ok tt ∧
  errors_Cause (errors_Wrapf ErrPackageUnselected "failed to get services" [])
  ≠ ErrUnknownService ∧
  currentService (e_state (UseService ".Echo" start).1.2) = "".
Proof. by vm_compute. Qed.

Lemma UseService_without_package_witness :
  (∃ err, UseService "Greeter" start = (start, Err err) ∧
          errors_Cause err = ErrPackageUnselected) ∧
  UseService "greet.Greeter" start
  = ((at_greet.1, set_currentService "greet.Greeter" at_greet.2), Ok tt) ∧
  UseService "greet.Echo" start
  = (at_greet, Err (errors_Wrapf ErrUnknownService "%s not found" ["greet.Echo"])) ∧
  UseService "nope.Greeter" start
  = (start, Err (errors_Wrapf
                   (errors_Wrapf ErrUnknownPackage "%s not found" ["nope"])
                   "nope.Greeter" [])).
Proof.
  assert (∀ p, first_match entity.Name "greet" catalog p → p = greet) as Hgreet.
  { intros p Hp. apply (first_match_unique entity.Name "greet" catalog); [done|].
    by exists [], [other; unnamed]. }
  split_and!.
  - apply (proj1 (UseService_without_package "Greeter" start eq_refl)).
    intros a b Heq. apply (strings_Cut_includes "." "Greeter" eq_refl).
    exists a, b. exact Heq.
  - destruct (proj2 (UseService_without_package "greet.Greeter" start eq_refl)
               "greet" "Greeter" eq_refl
               (strings_Cut_includes "." "greet" eq_refl)) as [_ Hok].
    destruct (Hok at_greet) as (p & ->%Hgreet & _ & Hfound & _);
      [by vm_compute..|].
    apply Hfound. exists greet_Greeter, [Greeter], [].
    split_and!; [done..|]. by repeat constructor.
  - destruct (proj2 (UseService_without_package "greet.Echo" start eq_refl)
               "greet" "Echo" eq_refl
               (strings_Cut_includes "." "greet" eq_refl)) as [_ Hok].
    destruct (Hok at_greet) as (p & ->%Hgreet & _ & _ & Hunknown);
      [by vm_compute..|].
    apply Hunknown. by repeat constructor.
  - destruct (proj2 (UseService_without_package "nope.Greeter" start eq_refl)
               "nope" "Greeter" eq_refl
               (strings_Cut_includes "." "nope" eq_refl)) as [Hfail _].
    by apply (Hfail start (errors_Wrapf ErrUnknownPackage "%s not found" ["nope"])).
Defined.

Lemma UsePackage_unknown_fails_unchanged_witness :
  ∃ err, UsePackage "nope" at_Greeter = (at_Greeter, Err err) ∧
         errors_Cause err = ErrUnknownPackage ∧
         Error err = Some "nope not found: unknown package".
Proof.
  destruct (UsePackage_unknown_fails_unchanged "nope" at_Greeter)
    as (err & Hrun & Hcause & Hmsg & _).
  - by repeat constructor.
  - by exists err.
Defined.

(** [other] has no service at all, and [Greeter] stays the current one. *)
Lemma UsePackage_keeps_currentService_witness :
  currentService (e_state (UsePackage "other" at_Greeter).1.2) = "Greeter" ∧
  currentPackage (e_state (UsePackage "other" at_Greeter).1.2) = "other" ∧
  Services (UsePackage "other" at_Greeter).1.2 = Ok [].
Proof.
  destruct (UsePackage_keeps_currentService "other" at_Greeter
              (UsePackage "other" at_Greeter).1) as (Hs & Hp & _).
  - by vm_compute.
  - rewrite Hs, Hp. by vm_compute.
Defined.

(** With [greet] and its service [Greeter] selected.  Two messages are
    called [HelloRequest]: the first one is returned.  The service
    [greet.Greeter] is the second of the list and has its own tag.  The RPC
    [SayHello] is found among the RPCs of [Greeter]; [Missing] is not. *)
Lemma lookups_return_first_match_witness :
  Message "HelloRequest" at_Greeter.2 = Ok (mkMessage "HelloRequest" 0) ∧
  Service "greet.Greeter" at_Greeter.2 = Ok greet_Greeter ∧
  (∃ err, Service "Missing" at_Greeter.2 = Err err ∧
          Error err = Some "Missing not found: invalid service name") ∧
  RPC "SayHello" at_Greeter.2 = Ok SayHello ∧
  (∃ err, RPC "Missing" at_Greeter.2 = Err err ∧
          errors_Cause err = ErrInvalidRPCName ∧
          Error err = Some "Missing not found: invalid RPC name").
Proof.
  assert (currentPackage (e_state at_Greeter.2) ≠ "") as Hsel by by vm_compute.
  assert (pkg (e_cache at_Greeter.2) !! currentPackage (e_state at_Greeter.2)
          = Some greet) as Hp by by vm_compute.
  assert (currentService (e_state at_Greeter.2) ≠ "") as Hsvc by by vm_compute.
  assert (first_match entity.Service_Name (currentService (e_state at_Greeter.2))
            (entity.Services greet) Greeter) as HGreeter
    by by exists [], [greet_Greeter].
  split_and!.
  - destruct (lookups_return_first_match "HelloRequest" at_Greeter.2 greet Hsel Hp)
      as (_ & [Hfirst _] & _).
    apply Hfirst. by exists [], [mkMessage "HelloRequest" 1].
  - destruct (lookups_return_first_match "greet.Greeter" at_Greeter.2 greet Hsel Hp)
      as ([Hfirst _] & _).
    apply Hfirst. exists [Greeter], []. split_and!; [done..|].
    by repeat constructor.
  - destruct (lookups_return_first_match "Missing" at_Greeter.2 greet Hsel Hp)
      as ([_ Hnone] & _).
    destruct Hnone as (err & Herr & _ & Hmsg & _); [by repeat constructor|].
    by exists err.
  - destruct (lookups_return_first_match "SayHello" at_Greeter.2 greet Hsel Hp)
      as (_ & _ & Hrpc).
    destruct (Hrpc Greeter Hsvc HGreeter) as [Hfirst _].
    apply Hfirst. by exists [], [].
  - destruct (lookups_return_first_match "Missing" at_Greeter.2 greet Hsel Hp)
      as (_ & _ & Hrpc).
    destruct (Hrpc Greeter Hsvc HGreeter) as [_ Hnone].
    destruct Hnone as (err & Herr & Hcause & Hmsg & _); [by repeat constructor|].
    by exists err.
Defined.

(** The store of [start] holds the headers [b] and [a]; [Headers] returns
    them as [a], [b], in objects that did not exist, and overwriting both
    returned objects changes nothing for the next call, whatever the order
    of its [Range]. *)
Lemma Headers_sorted_fresh_copies_witness :
  ∃ (ls : list nat) (σ' : list entity.Header),
    Headers (map_to_list (headers (e_option start.2))) start
    = ((σ', start.2), Ok ls) ∧
    deref σ' ls = [ {| entity.Key := "a"; entity.Val := "1" |};
                    {| entity.Key := "b"; entity.Val := "2" |} ] ∧
    Forall (λ l, start.1 !! l = None) ls ∧
    ∀ range2 : list (string * nat),
      Range_order start range2 →
      ∃ (ls2 : list nat) (σ2 : list entity.Header),
        Headers range2
          (client_stores
             ((λ l, (l, {| entity.Key := "z"; entity.Val := "0" |})) <$> ls)
             σ', start.2)
        = ((σ2, start.2), Ok ls2) ∧
        deref σ2 ls2 = deref σ' ls.
Proof.
  destruct (Headers_sorted_fresh_copies start
              (map_to_list (headers (e_option start.2))))
    as (ls & σ' & Hrun & _ & _ & _ & _ & Hfresh & _ & _ & _ & Hstores).
  - apply headers_allocated_list. vm_compute. repeat constructor; by eexists.
  - by unfold Range_order.
  - exists ls, σ'. split; [done|]. split; [|split; [done|]].
    + pose proof (f_equal (λ r : World * Result (list nat),
                   match r.2 with Ok l => deref r.1.1 l | _ => [] end) Hrun)
        as Hvals.
      cbn [fst snd] in Hvals. rewrite <-Hvals. by vm_compute.
    + intros range2 Hrange2.
      destruct (Hstores
                  ((λ l, (l, {| entity.Key := "z"; entity.Val := "0" |})) <$> ls))
        as [_ Hnext].
      { apply Forall_fmap, Forall_forall. by intros l Hl. }
      destruct (Hnext range2 Hrange2) as (ls2 & σ2 & Hrun2 & _ & _ & _ & Hsame).
      exists ls2, σ2. split; [done|]. apply Hsame.
      apply (bool_decide_unpack _). by vm_compute.
Defined.


Lemma named_at_Greeter_reachable : reachable named_at_Greeter.
Proof.
  unfold named_at_Greeter, named_start.
  eapply reachable_step; [|apply step_UseService].
  eapply reachable_step; [|apply step_UsePackage].
  apply reachable_New.
Qed.

(** C9 fails as stated.  The catalog has the package without a name: with
    [greet] and [Greeter] selected, [UsePackage ""] succeeds and leaves a
    selected service with no selected package, and [DSN] empty. *)
Lemma selection_order_invariant_counterexample :
  reachable (UsePackage "" at_Greeter).1 ∧
  (UsePackage "" at_Greeter).2 = Ok tt ∧
  currentService (e_state (UsePackage "" at_Greeter).1.2) = "Greeter" ∧
  currentService (e_state (UsePackage "" at_Greeter).1.2) ≠ "" ∧
  currentPackage (e_state (UsePackage "" at_Greeter).1.2) = "" ∧
  DSN (UsePackage "" at_Greeter).1.2 = "".
Proof.
  split; [|by vm_compute].
  unfold at_Greeter, at_greet, start.
  eapply reachable_step; [|apply step_UsePackage].
  eapply reachable_step; [|apply step_UseService].
  eapply reachable_step; [|apply step_UsePackage].
  apply reachable_New.
Qed.

Lemma selection_order_invariant_witness :
  currentService (e_state named_at_Greeter.2) = "Greeter" ∧
  currentPackage (e_state named_at_Greeter.2) ≠ "".
Proof.
  split; [by vm_compute|].
  apply selection_order_invariant.
  - apply named_at_Greeter_reachable.
  - by repeat constructor.
  - by vm_compute.
Defined.

Lemma cache_holds_current_package_witness :
  pkg (e_cache named_at_Greeter.2) !! "greet" = Some greet ∧
  Services named_at_Greeter.2 ≠ Panic ∧
  Messages named_at_Greeter.2 ≠ Panic.
Proof.
  destruct (cache_holds_current_package named_at_Greeter
              named_at_Greeter_reachable) as (_ & Hs & Hm & _).
  split_and!; [by vm_compute|done..].
Defined.

End Examples.

(** * Further properties of the package *)

(** ** Selection *)

Section MoreSelection.
Context `{entity.Entities}.

Lemma first_match_elem_of {A} (name_of : A → string) (name : string)
    (xs : list A) (x : A) :
  first_match name_of name xs x → x ∈ xs ∧ name_of x = name.
Proof.
  intros (before & after & -> & Hx & _). split; [|done].
  set_solver.
Qed.

Lemma elem_of_first_match {A} (name_of : A → string) (name : string)
    (xs : list A) (x : A) :
  x ∈ xs → name_of x = name → ∃ y, first_match name_of name xs y.
Proof.
  intros Hx Hname. destruct (first_match_or_none name_of name xs) as [|Hnone];
    [done|].
  rewrite Forall_forall in Hnone. by destruct (Hnone x Hx).
Qed.

(** X1.  [UsePackage name] succeeds exactly when some package of the catalog,
    at any position, is called [name]; it then selects the first such
    package.  Otherwise it fails and the world stays as it was. *)
Theorem UsePackage_succeeds_iff (name : string) (w : World) :
  ((UsePackage name w).2 = Ok tt ↔
   ∃ p, p ∈ pkgs w.2 ∧ entity.Name p = name) ∧
  ((UsePackage name w).2 = Ok tt →
   ∃ p, first_match entity.Name name (pkgs w.2) p ∧
        pkg (e_cache (UsePackage name w).1.2) !! name = Some p ∧
        currentPackage (e_state (UsePackage name w).1.2) = name) ∧
  ((UsePackage name w).2 ≠ Ok tt → (UsePackage name w).1 = w).
Proof.
  destruct (UsePackage_cases name w) as [(p & Hp & Heq)|[Hnone Heq]];
    rewrite Heq; cbn [fst snd].
  - split_and!; [|intros _; exists p|done].
    + split; [intros _|done]. exists p. by eapply first_match_elem_of.
    + split_and!; [done| |done]. cbn. by rewrite lookup_insert_eq.
  - split_and!; [|done..]. split; [done|].
    intros (p & Hp & Hname). rewrite Forall_forall in Hnone.
    by destruct (Hnone p Hp).
Qed.

(** X2.  [UsePackage] is idempotent: a second call with the same name
    returns what the first returned and leaves the world the first left. *)
Theorem UsePackage_idempotent (name : string) (w : World) :
  UsePackage name (UsePackage name w).1 = UsePackage name w.
Proof.
  destruct (UsePackage_cases name w) as [(p & Hp%scan_Some & Heq)|[Hnone Heq]];
    rewrite Heq; cbn [fst]; [|done].
  rewrite (UsePackage_found name _ p) by done.
  destruct w as [σ [pk [cp cs] op [pl ca]]]. unfold set_cache_pkg, set_currentPackage.
  cbn. by rewrite insert_insert_eq.
Qed.

Lemma UseService_keeps_store (name : string) (w : World) :
  (UseService name w).1.1 = w.1 ∧
  pkgs (UseService name w).1.2 = pkgs w.2 ∧
  e_option (UseService name w).1.2 = e_option w.2 ∧
  pkgList (e_cache (UseService name w).1.2) = pkgList (e_cache w.2).
Proof.
  destruct (UseService_step name w) as (w1 & Hw1 & Hw').
  assert (w1.1 = w.1 ∧ pkgs w1.2 = pkgs w.2 ∧ e_option w1.2 = e_option w.2 ∧
          pkgList (e_cache w1.2) = pkgList (e_cache w.2)) as Hw1'.
  { destruct Hw1 as [->|[prefix ->]]; [done|].
    by destruct (UsePackage_step prefix w) as [->|(p & _ & ->)]. }
  by destruct Hw' as [->|[-> _]].
Qed.

(** X3.  What [UseService] leaves alone.  It never touches the catalog, the
    header store or the header objects.  When it does not succeed, the
    current service is what it was.  With a package selected it changes
    neither the current package nor the cache, whatever it returns. *)
Theorem UseService_frame (name : string) (w : World) :
  (UseService name w).1.1 = w.1 ∧
  pkgs (UseService name w).1.2 = pkgs w.2 ∧
  e_option (UseService name w).1.2 = e_option w.2 ∧
  ((UseService name w).2 ≠ Ok tt →
   currentService (e_state (UseService name w).1.2)
   = currentService (e_state w.2)) ∧
  (currentPackage (e_state w.2) ≠ "" →
   currentPackage (e_state (UseService name w).1.2)
   = currentPackage (e_state w.2) ∧
   e_cache (UseService name w).1.2 = e_cache w.2).
Proof.
  destruct (UseService_keeps_store name w) as (Hheap & Hpkgs & Hopt & _).
  split_and!; [done..| |].
  - destruct (decide (currentPackage (e_state w.2) = "")) as [Hsel|Hsel].
    + destruct (strings_Cut name ".") as [[prefix rest]|] eqn:Hcut.
      * rewrite (UseService_unselected_dot _ _ _ _ Hsel Hcut).
        destruct (UsePackage_cases prefix w) as [(p & _ & ->)|[_ ->]]; [|done].
        cbn [fst snd]. destruct (Services _) as [svcs| |]; [|done..].
        by destruct (scan _ name svcs).
      * by rewrite (UseService_unselected_nodot _ _ Hsel Hcut).
    + rewrite (UseService_selected _ _ Hsel).
      destruct (Services w.2) as [svcs| |]; [|done..].
      by destruct (scan _ name svcs).
  - intros Hsel. rewrite (UseService_selected _ _ Hsel).
    destruct (Services w.2) as [svcs| |]; [|done..].
    by destruct (scan _ name svcs).
Qed.

End MoreSelection.

(** ** Queries *)

Section MoreQueries.
Context `{entity.Entities}.

Lemma Services_unselected (e : Env) :
  currentPackage (e_state e) = "" →
  Services e = Err ErrPackageUnselected ∧ Messages e = Err ErrPackageUnselected.
Proof. intros Hsel. unfold Services, Messages, HasCurrentPackage. by rewrite Hsel. Qed.

(** X4.  Before a selection every query fails with the bare sentinel.  With
    no package selected, [Services], [Messages], [Service] and [Message]
    return [ErrPackageUnselected] itself, unwrapped.  With no service selected,
    [RPCs] and [RPC] return [ErrServiceUnselected].  With a service but no
    package selected, [RPCs] and [RPC] return [ErrPackageUnselected]: the
    error of their inner call of [Services]. *)
Theorem queries_before_selection (e : Env) :
  (currentPackage (e_state e) = "" →
   Services e = Err ErrPackageUnselected ∧
   Messages e = Err ErrPackageUnselected ∧
   (∀ name, Service name e = Err ErrPackageUnselected ∧
            Message name e = Err ErrPackageUnselected) ∧
   DSN e = "") ∧
  (currentService (e_state e) = "" →
   RPCs e = Err ErrServiceUnselected ∧
   ∀ name, RPC name e = Err ErrServiceUnselected) ∧
  (currentPackage (e_state e) = "" → currentService (e_state e) ≠ "" →
   RPCs e = Err ErrPackageUnselected ∧
   ∀ name, RPC name e = Err ErrPackageUnselected).
Proof.
  split_and!.
  - intros Hsel. destruct (Services_unselected e Hsel) as [Hs Hm].
    split_and!; [done..| |].
    + intros name. unfold Service, Message. by rewrite Hs, Hm.
    + unfold DSN. by rewrite Hsel.
  - intros Hsel.
    assert (RPCs e = Err ErrServiceUnselected) as Hr.
    { unfold RPCs, HasCurrentService. by rewrite Hsel. }
    split; [done|]. intros name. unfold RPC. by rewrite Hr.
  - intros Hpkg Hsvc. destruct (Services_unselected e Hpkg) as [Hs _].
    assert (RPCs e = Err ErrPackageUnselected) as Hr.
    { rewrite (RPCs_selected _ Hsvc). unfold Service. by rewrite Hs. }
    split; [done|]. intros name. unfold RPC. by rewrite Hr.
Qed.

(** X5.  [RPCs] returns a list exactly when a service is selected and the
    services of the current package include one of that name: the list is
    that of the first such service.  When the current package has no service
    of the selected name (as after a change of package), [RPCs] and every
    [RPC name] fail with [ErrInvalidServiceName], and the message names the
    selected service, not the RPC asked for. *)
Theorem RPCs_of_current_service (e : Env) :
  (∀ rpcs, RPCs e = Ok rpcs ↔
     currentService (e_state e) ≠ "" ∧
     ∃ svcs s, Services e = Ok svcs ∧
               first_match entity.Service_Name (currentService (e_state e)) svcs s ∧
               rpcs = entity.Service_RPCs s) ∧
  (∀ svcs, currentService (e_state e) ≠ "" → Services e = Ok svcs →
     Forall (λ s, entity.Service_Name s ≠ currentService (e_state e)) svcs →
     let err := errors_Wrapf ErrInvalidServiceName "%s not found"
                  [currentService (e_state e)] in
     RPCs e = Err err ∧ (∀ name, RPC name e = Err err) ∧
     Error err
     = Some (currentService (e_state e) +:+ " not found: invalid service name")).
Proof.
  split.
  - intros rpcs. split.
    + intros Hr.
      destruct (decide (currentService (e_state e) = "")) as [Hsel|Hsel].
      { unfold RPCs, HasCurrentService in Hr. by rewrite Hsel in Hr. }
      split; [done|]. rewrite (RPCs_selected _ Hsel) in Hr.
      unfold Service in Hr. destruct (Services e) as [svcs| |]; [|done..].
      cbn [Result_bind] in Hr.
      destruct (scan _ _ svcs) as [s|] eqn:Hscan; [|done].
      injection Hr as <-. exists svcs, s. by apply scan_Some in Hscan.
    + intros (Hsel & svcs & s & Hs & Hfirst%scan_Some & ->).
      rewrite (RPCs_selected _ Hsel), (Service_scan _ _ _ Hs). by rewrite Hfirst.
  - intros svcs Hsel Hs Hnone%scan_None err.
    assert (RPCs e = Err err) as Hr.
    { rewrite (RPCs_selected _ Hsel), (Service_scan _ _ _ Hs). by rewrite Hnone. }
    split_and!; [done| |apply Error_not_found].
    intros name. unfold RPC. by rewrite Hr.
Qed.

(** X6.  What the queries see after a successful [UsePackage name].  For a
    name that is not empty, [Services] and [Messages] return the lists of
    the first catalog package of that name, and [DSN] starts with the name.
    For the empty name (the package of a proto file without package clause)
    the call has succeeded and filled the cache, yet [HasCurrentPackage] is
    false, [Services] and [Messages] fail with [ErrPackageUnselected] and
    [DSN] is empty. *)
Theorem queries_after_UsePackage (name : string) (w w' : World) :
  UsePackage name w = (w', Ok tt) →
  ∃ p, first_match entity.Name name (pkgs w.2) p ∧
       pkg (e_cache w'.2) !! name = Some p ∧
       (name ≠ "" →
        HasCurrentPackage w'.2 = true ∧
        Services w'.2 = Ok (entity.Services p) ∧
        Messages w'.2 = Ok (entity.Messages p) ∧
        ∃ rest, DSN w'.2 = name +:+ rest) ∧
       (name = "" →
        HasCurrentPackage w'.2 = false ∧
        Services w'.2 = Err ErrPackageUnselected ∧
        Messages w'.2 = Err ErrPackageUnselected ∧
        DSN w'.2 = "").
Proof.
  intros (p & Hp & ->)%UsePackage_Ok_inv. exists p. cbn [snd].
  split; [done|]. split; [cbn; by rewrite lookup_insert_eq|]. split.
  - intros Hne. pose proof Hne as Hne'%String.eqb_neq.
    unfold Services, Messages, HasCurrentPackage, DSN. cbn.
    rewrite Hne'. cbn. rewrite lookup_insert_eq. split_and!; [done..|].
    destruct (negb _); [by eexists|]. exists "".
    clear. induction name as [|c name IH]; [done|].
    change (String c name = String c (name +:+ "")). by rewrite <-IH.
  - by intros ->.
Qed.

(** X7.  The causes of the errors.  Whatever the world and the name,
    [UsePackage] fails only with [ErrUnknownPackage]; [UseService] only with
    [ErrPackageUnselected], [ErrUnknownPackage] or [ErrUnknownService];
    [Services] and [Messages] only with [ErrPackageUnselected] itself;
    [Service] and [Message] add [ErrInvalidServiceName] and
    [ErrInvalidMessageName]; [RPCs] fails with [ErrServiceUnselected],
    [ErrPackageUnselected] or [ErrInvalidServiceName], and [RPC] adds
    [ErrInvalidRPCName]. *)
Theorem error_causes (name : string) (w : World) (err : error) :
  ((UsePackage name w).2 = Err err → errors_Cause err = ErrUnknownPackage) ∧
  ((UseService name w).2 = Err err →
   errors_Cause err = ErrPackageUnselected ∨
   errors_Cause err = ErrUnknownPackage ∨
   errors_Cause err = ErrUnknownService) ∧
  (Services w.2 = Err err → err = ErrPackageUnselected) ∧
  (Messages w.2 = Err err → err = ErrPackageUnselected) ∧
  (Service name w.2 = Err err →
   err = ErrPackageUnselected ∨ errors_Cause err = ErrInvalidServiceName) ∧
  (Message name w.2 = Err err →
   err = ErrPackageUnselected ∨ errors_Cause err = ErrInvalidMessageName) ∧
  (RPCs w.2 = Err err →
   err = ErrServiceUnselected ∨ err = ErrPackageUnselected ∨
   errors_Cause err = ErrInvalidServiceName) ∧
  (RPC name w.2 = Err err →
   err = ErrServiceUnselected ∨ err = ErrPackageUnselected ∨
   errors_Cause err = ErrInvalidServiceName ∨
   errors_Cause err = ErrInvalidRPCName).
Proof.
  assert (∀ e err0, Services e = Err err0 → err0 = ErrPackageUnselected) as Hs.
  { intros e err0. unfold Services.
    destruct (negb _); [by intros [= <-]|]. by destruct (_ !! _). }
  assert (∀ e err0, Messages e = Err err0 → err0 = ErrPackageUnselected) as Hm.
  { intros e err0. unfold Messages.
    destruct (negb _); [by intros [= <-]|]. by destruct (_ !! _). }
  assert (∀ n e err0, Service n e = Err err0 →
          err0 = ErrPackageUnselected ∨ errors_Cause err0 = ErrInvalidServiceName)
    as Hsvc.
  { intros n e err0. unfold Service.
    destruct (Services e) as [svcs|err1|] eqn:Hse; cbn [Result_bind]; [| |done].
    - destruct (scan _ n svcs); [done|]. intros [= <-]. by right.
    - intros [= <-]. left. by eapply Hs. }
  assert (∀ e err0, RPCs e = Err err0 →
          err0 = ErrServiceUnselected ∨ err0 = ErrPackageUnselected ∨
          errors_Cause err0 = ErrInvalidServiceName) as Hrpcs.
  { intros e err0. unfold RPCs. destruct (negb _); [intros [= <-]; by left|].
    destruct (Service _ e) as [s|err1|] eqn:Hse; cbn [Result_bind]; [done| |done].
    intros [= <-]. right. by eapply Hsvc. }
  split_and!.
  - destruct (UsePackage_cases name w) as [(p & _ & ->)|[_ ->]]; [done|].
    by intros [= <-].
  - destruct (decide (currentPackage (e_state w.2) = "")) as [Hsel|Hsel].
    + destruct (strings_Cut name ".") as [[prefix rest]|] eqn:Hcut.
      * rewrite (UseService_unselected_dot _ _ _ _ Hsel Hcut).
        destruct (UsePackage_cases prefix w) as [(p & _ & ->)|[_ ->]].
        -- cbn [fst snd]. destruct (Services _) as [svcs|err1|] eqn:Hse; [| |done].
           ++ destruct (scan _ name svcs); [done|]. intros [= <-]. by right; right.
           ++ intros [= <-]. left. cbn. by rewrite (Hs _ _ Hse).
        -- intros [= <-]. by right; left.
      * rewrite (UseService_unselected_nodot _ _ Hsel Hcut). intros [= <-]. by left.
    + rewrite (UseService_selected _ _ Hsel).
      destruct (Services w.2) as [svcs|err1|] eqn:Hse; [| |done].
      * destruct (scan _ name svcs); [done|]. intros [= <-]. by right; right.
      * intros [= <-]. left. cbn. by rewrite (Hs _ _ Hse).
  - apply Hs.
  - apply Hm.
  - apply Hsvc.
  - unfold Message.
    destruct (Messages w.2) as [msgs|err1|] eqn:Hme; cbn [Result_bind]; [| |done].
    + destruct (scan _ name msgs); [done|]. intros [= <-]. by right.
    + intros [= <-]. left. by eapply Hm.
  - apply Hrpcs.
  - unfold RPC.
    destruct (RPCs w.2) as [rpcs|err1|] eqn:Hre; cbn [Result_bind]; [| |done].
    + destruct (scan _ name rpcs); [done|]. intros [= <-]. by right; right; right.
    + intros [= <-]. destruct (Hrpcs _ _ Hre) as [?|[?|?]]; auto.
Qed.

End MoreQueries.

(** ** The environment built from a flat list of services *)

Section MoreConstruction.
Context `{entity.Entities}.

(** X8.  In the environment of [NewFromServices], [UseService n] needs no
    package prefix: it succeeds exactly when one of the given services is
    called [n], and then [RPCs] returns the list of the first such service
    and [DSN] is ["default." ++ n] (for [n] not empty).  When no given
    service is called [n] it fails with [ErrUnknownService] and changes
    nothing.  [UsePackage] of any name but ["default"] fails. *)
Theorem UseService_after_NewFromServices
    (svcs : list entity.Service) (msgs : list entity.Message)
    (defaultHeaders : list entity.Header) (σ : list entity.Header)
    (w : World) (n : string) :
  NewFromServices svcs msgs defaultHeaders σ = (w, Ok tt) →
  (∀ s, first_match entity.Service_Name n svcs s →
     (UseService n w).2 = Ok tt ∧
     (n ≠ "" →
      RPCs (UseService n w).1.2 = Ok (entity.Service_RPCs s) ∧
      DSN (UseService n w).1.2 = "default." +:+ n)) ∧
  (Forall (λ s, entity.Service_Name s ≠ n) svcs →
   UseService n w
   = (w, Err (errors_Wrapf ErrUnknownService "%s not found" [n]))) ∧
  (n ≠ "default" →
   UsePackage n w
   = (w, Err (errors_Wrapf ErrUnknownPackage "%s not found" [n]))).
Proof.
  intros Hnew.
  destruct (NewFromServices_spec svcs msgs defaultHeaders σ)
    as (σ' & hm & _ & Heq & _).
  rewrite Hnew in Heq. injection Heq as ->.
  set (w := (σ', _)).
  assert (currentPackage (e_state w.2) ≠ "") as Hsel by done.
  assert (Services w.2 = Ok svcs) as Hsvcs by done.
  split_and!.
  - intros s Hs%scan_Some. rewrite (UseService_selected _ _ Hsel), Hsvcs, Hs.
    cbn [fst snd]. split; [done|]. intros Hn. split.
    + rewrite RPCs_selected by done. cbn [set_currentService e_state currentService].
      rewrite (Service_scan _ _ svcs) by done. by rewrite Hs.
    + pose proof Hn as Hn'%String.eqb_neq. unfold DSN. cbn.
      by rewrite Hn'.
  - intros Hnone%scan_None. by rewrite (UseService_selected _ _ Hsel), Hsvcs, Hnone.
  - intros Hn. apply UsePackage_not_found. cbn.
    destruct (String.eqb_spec n "default"); done.
Qed.

End MoreConstruction.

(** ** Runs *)

Section MoreInvariants.
Context `{entity.Entities}.

Lemma step_catalog_cache (w w' : World) :
  step w w' →
  pkgs w'.2 = pkgs w.2 ∧
  pkgList (e_cache w'.2) = pkgList (e_cache w.2) ∧
  (∀ name, is_Some (pkg (e_cache w.2) !! name) →
           is_Some (pkg (e_cache w'.2) !! name)) ∧
  (cache_consistent w.2 → cache_consistent w'.2).
Proof.
  assert (∀ name (w0 : World),
    let w1 := (UsePackage name w0).1 in
    pkgs w1.2 = pkgs w0.2 ∧
    pkgList (e_cache w1.2) = pkgList (e_cache w0.2) ∧
    (∀ k, is_Some (pkg (e_cache w0.2) !! k) → is_Some (pkg (e_cache w1.2) !! k)) ∧
    (cache_consistent w0.2 → cache_consistent w1.2)) as Huse.
  { intros name w0 w1. unfold w1.
    destruct (UsePackage_step name w0) as [->|(p & Hp & ->)]; [done|].
    cbn. split_and!; [done..| |].
    - intros k Hk. destruct (decide (name = k)) as [->|Hne].
      + rewrite lookup_insert_eq. by eexists.
      + by rewrite lookup_insert_ne.
    - intros Hc k q. unfold cache_consistent in *. cbn.
      destruct (decide (name = k)) as [->|Hne].
      + rewrite lookup_insert_eq. by intros [= <-].
      + rewrite lookup_insert_ne by done. apply Hc. }
  destruct 1 as [name w|name w|h w|key w|range w Hrange|hv w|l hv w].
  - apply Huse.
  - destruct (UseService_step name w) as (w1 & Hw1 & Hw').
    assert (pkgs w1.2 = pkgs w.2 ∧
            pkgList (e_cache w1.2) = pkgList (e_cache w.2) ∧
            (∀ k, is_Some (pkg (e_cache w.2) !! k) →
                  is_Some (pkg (e_cache w1.2) !! k)) ∧
            (cache_consistent w.2 → cache_consistent w1.2)) as Hw1'.
    { destruct Hw1 as [->|[prefix ->]]; [done|apply Huse]. }
    by destruct Hw' as [->|[-> _]].
  - destruct (header_steps_frame w) as (Hadd & _ & _).
    by destruct (Hadd h) as [->|[f ->]].
  - destruct (header_steps_frame w) as (_ & Hrm & _). by rewrite Hrm.
  - destruct (header_steps_frame w) as (_ & _ & Hhd). by rewrite Hhd.
  - done.
  - done.
Qed.

(** X9.  Along every run, whatever the calls return: the catalog stays the
    one given to the constructor, the field [pkgList] of the cache is never
    assigned, and no cache entry is ever removed. *)
Theorem run_keeps_catalog_and_cache (w w' : World) :
  rtc step w w' →
  Packages w'.2 = Packages w.2 ∧
  pkgList (e_cache w'.2) = pkgList (e_cache w.2) ∧
  ∀ name, is_Some (pkg (e_cache w.2) !! name) →
          is_Some (pkg (e_cache w'.2) !! name).
Proof.
  induction 1 as [w|w w1 w' Hstep _ (IHp & IHl & IHc)]; [done|].
  destruct (step_catalog_cache _ _ Hstep) as (Hp & Hl & Hc & _).
  unfold Packages in *. split_and!; [congruence..|].
  intros name Hname. by apply IHc, Hc.
Qed.

Lemma reachable_cache (w : World) :
  reachable w → cache_consistent w.2 ∧ pkgList (e_cache w.2) = [].
Proof.
  induction 1 as [pkgs0 hs σ|svcs msgs hs σ w Hnew|w w' _ [IHc IHl] Hstep].
  - destruct (New_spec pkgs0 hs σ) as (σ' & hm & -> & _). by split.
  - destruct (NewFromServices_spec svcs msgs hs σ) as (σ' & hm & _ & Heq & _).
    rewrite Hnew in Heq. injection Heq as ->. split; [|done].
    intros name p. cbn. intros [<- <-]%lookup_singleton_Some.
    by exists [], [].
  - destruct (step_catalog_cache _ _ Hstep) as (_ & Hl & _ & Hc).
    split; [by apply Hc|congruence].
Qed.

(** X10.  In every reachable world the cache agrees with the catalog: each
    entry is the first catalog package of that name.  So, with a package
    selected, [Services] and [Messages] return the lists of the first catalog
    package called [currentPackage], as a scan of the catalog would. *)
Theorem cache_agrees_with_catalog (w : World) :
  reachable w →
  cache_consistent w.2 ∧
  (currentPackage (e_state w.2) ≠ "" →
   ∃ p, first_match entity.Name (currentPackage (e_state w.2)) (Packages w.2) p ∧
        scan entity.Name (currentPackage (e_state w.2)) (Packages w.2) = Some p ∧
        Services w.2 = Ok (entity.Services p) ∧
        Messages w.2 = Ok (entity.Messages p)).
Proof.
  intros Hw. destruct (reachable_cache w Hw) as [Hc _]. split; [done|].
  intros Hsel. destruct (reachable_invariants w Hw) as [Hcache _].
  destruct (Hcache Hsel) as [p Hp]. exists p.
  pose proof (Hc _ _ Hp) as Hfirst. split; [done|].
  split; [by apply scan_Some|].
  apply String.eqb_neq in Hsel.
  unfold Services, Messages, HasCurrentPackage. by rewrite Hsel, Hp.
Qed.

End MoreInvariants.

(** ** The header store, continued *)

Section MoreHeaders.
Context `{entity.Entities}.

Lemma New_loop_cons (h : entity.Header) (rest : list entity.Header)
    (σ : list entity.Header) (e : Env) :
  New_loop (h :: rest) (σ, e)
  = New_loop rest (σ ++ [h], upd_headers (<[entity.Key h := length σ]>) e).
Proof.
  cbn [New_loop alloc fst snd]. rewrite Header_copy. unfold M_bind.
  by rewrite (AddHeader_allocated _ h); [|by apply list_lookup_middle].
Qed.

Lemma keys_agree_allocated (w : World) : keys_agree w → headers_allocated w.
Proof.
  intros Hw. eapply map_Forall_impl; [exact Hw|]. cbn.
  intros key l (hv & Hl & _). by exists hv.
Qed.

Lemma keys_agree_app (σ τ : list entity.Header) (e : Env) :
  keys_agree (σ, e) → keys_agree (σ ++ τ, e).
Proof.
  intros Hw. eapply map_Forall_impl; [exact Hw|]. cbn.
  intros key l (hv & Hl & Hkey). exists hv. split; [|done].
  by apply lookup_app_l_Some.
Qed.

Lemma keys_agree_AddHeader (h : nat) (w : World) :
  keys_agree w → keys_agree (AddHeader h w).1.
Proof.
  intros Hw. unfold AddHeader. destruct (w.1 !! h) as [hv|] eqn:Hh; [|done].
  apply map_Forall_insert_2; [by exists hv|done].
Qed.

(** What the loop of [New] leaves in the store. *)
Lemma New_loop_stored (defaultHeaders : list entity.Header) (w : World) :
  headers_allocated w →
  (∀ key, stored_header (New_loop defaultHeaders w).1 key
          = match last_header key defaultHeaders with
            | Some h => Some h
            | None => stored_header w key
            end) ∧
  (∀ key l, headers (e_option (New_loop defaultHeaders w).1.2) !! key = Some l →
            headers (e_option w.2) !! key = Some l ∨ (length w.1 ≤ l)%nat) ∧
  (keys_agree w → keys_agree (New_loop defaultHeaders w).1).
Proof.
  revert w. induction defaultHeaders as [|h rest IH]; intros [σ e] Halloc.
  - split_and!; [done| |done]. intros key l Hl. by left.
  - rewrite New_loop_cons.
    set (w1 := (σ ++ [h], upd_headers (<[entity.Key h := length σ]>) e)).
    assert (headers_allocated w1) as Halloc1.
    { apply map_Forall_insert_2.
      - exists h. by apply list_lookup_middle.
      - eapply map_Forall_impl; [exact Halloc|]. cbn. intros _ l [hv Hl].
        exists hv. by apply lookup_app_l_Some. }
    destruct (IH w1 Halloc1) as (Hstored & Hfresh & Hkeys). split_and!.
    + intros key. rewrite Hstored. cbn [last_header].
      destruct (last_header key rest); [done|].
      unfold stored_header, w1. cbn [fst snd upd_headers headers e_option].
      destruct (String.eqb_spec (entity.Key h) key) as [<-|Hne].
      * rewrite lookup_insert_eq. cbn. by apply list_lookup_middle.
      * rewrite lookup_insert_ne by done.
        destruct (headers (e_option e) !! key) as [l|] eqn:Hl; [|done]. cbn.
        destruct (Halloc key l Hl) as [hv Hhv]. cbn in Hhv. rewrite Hhv.
        by apply lookup_app_l_Some.
    + intros key l Hl. destruct (Hfresh key l Hl) as [Hold|Hnew].
      * unfold w1 in Hold. cbn in Hold.
        destruct (decide (entity.Key h = key)) as [<-|Hne].
        -- rewrite lookup_insert_eq in Hold. injection Hold as <-. by right.
        -- rewrite lookup_insert_ne in Hold by done. by left.
      * right. unfold w1 in Hnew. cbn [fst] in *. rewrite length_app in Hnew.
        cbn in Hnew. lia.
    + intros Hw. apply Hkeys. apply map_Forall_insert_2.
      * exists h. split; [|done]. by apply list_lookup_middle.
      * by apply (keys_agree_app σ [h] e).
Qed.

(** X11.  [New] returns, without a panic, an environment with the given
    catalog, nothing selected and an empty cache.  Its header store holds,
    under each key, the last default header with that key, and nothing under
    other keys.  The stored objects are new ones: no object that existed
    before the call is referenced by the store, and those objects are left
    as they were. *)
Theorem New_initial_world (pkgs0 : list entity.Package)
    (defaultHeaders : list entity.Header) (σ : list entity.Header) :
  let w := (New pkgs0 defaultHeaders σ).1 in
  (New pkgs0 defaultHeaders σ).2 = Ok tt ∧
  Packages w.2 = pkgs0 ∧
  e_state w.2 = {| currentPackage := ""; currentService := "" |} ∧
  pkg (e_cache w.2) = ∅ ∧
  (∀ key, stored_header w key = last_header key defaultHeaders) ∧
  (∀ key l, headers (e_option w.2) !! key = Some l → (length σ ≤ l)%nat) ∧
  (∀ l hv, σ !! l = Some hv → w.1 !! l = Some hv) ∧
  keys_agree w.
Proof.
  intros w. unfold w.
  destruct (New_spec pkgs0 defaultHeaders σ) as (σ' & hm & Heq & _).
  pose proof (New_loop_spec defaultHeaders
    (σ, {| pkgs := pkgs0;
           e_state := {| currentPackage := ""; currentService := "" |};
           e_option := {| headers := ∅ |};
           e_cache := {| pkgList := []; pkg := ∅ |} |}))
    as (σ2 & hm2 & Heq2 & Hold & _).
  destruct (New_loop_stored defaultHeaders
    (σ, {| pkgs := pkgs0;
           e_state := {| currentPackage := ""; currentService := "" |};
           e_option := {| headers := ∅ |};
           e_cache := {| pkgList := []; pkg := ∅ |} |}))
    as (Hstored & Hfresh & Hkeys); [apply map_Forall_empty|].
  split_and!.
  - by rewrite Heq.
  - by rewrite Heq.
  - by rewrite Heq.
  - by rewrite Heq.
  - intros key. unfold New. rewrite Hstored.
    by destruct (last_header key defaultHeaders).
  - intros key l Hl. unfold New in Hl. by destruct (Hfresh key l Hl).
  - intros l hv Hl. unfold New. rewrite Heq2. by apply Hold.
  - unfold New. apply Hkeys, map_Forall_empty.
Qed.

(** X12.  [AddHeader] and [RemoveHeader] undo and absorb each other.  Adding
    a header whose key is absent and then removing that key gives back the
    world; removing a key and then adding a header with that key is the same
    as adding it at once. *)
Theorem AddHeader_RemoveHeader (h : nat) (hv : entity.Header) (w : World) :
  w.1 !! h = Some hv →
  (headers (e_option w.2) !! entity.Key hv = None →
   (RemoveHeader (entity.Key hv) (AddHeader h w).1).1 = w) ∧
  AddHeader h (RemoveHeader (entity.Key hv) w).1 = AddHeader h w.
Proof.
  intros Hh. split.
  - intros Habsent. rewrite (AddHeader_allocated _ _ _ Hh).
    destruct w as [σ [pk st [hm] ca]]. unfold RemoveHeader, M_modify, upd_headers.
    cbn in *. by rewrite delete_insert_id.
  - rewrite (AddHeader_allocated _ _ w Hh).
    rewrite (AddHeader_allocated _ hv) by done.
    destruct w as [σ [pk st [hm] ca]]. unfold upd_headers. cbn.
    by rewrite insert_delete_eq.
Qed.

(** X13.  [AddHeader] stores the pointer it is given, not a copy: what the
    caller writes through that pointer afterwards is what the store holds,
    still under the key the header had when it was added, and what [Headers]
    returns, whatever the order of its [Range]. *)
Theorem AddHeader_aliases_argument (h : nat) (hv hv' : entity.Header) (w : World) :
  headers_allocated w →
  w.1 !! h = Some hv →
  let w1 := (AddHeader h w).1 in
  let w2 : World := (<[h := hv']> w1.1, w1.2) in
  headers (e_option w1.2) !! entity.Key hv = Some h ∧
  stored_header w1 (entity.Key hv) = Some hv ∧
  stored_header w2 (entity.Key hv) = Some hv' ∧
  ∀ range, Range_order w2 range →
    ∃ ls σ', Headers range w2 = ((σ', w2.2), Ok ls) ∧ hv' ∈ deref σ' ls.
Proof.
  intros Halloc Hh w1 w2. unfold w2, w1.
  rewrite (AddHeader_allocated _ _ _ Hh). cbn [fst snd].
  assert (h < length w.1) as Hlt by by eapply lookup_lt_Some.
  unfold stored_header. cbn [fst snd upd_headers headers e_option].
  rewrite lookup_insert_eq. cbn. split_and!; [done..| |].
  - by apply list_lookup_insert_eq.
  - set (w3 := (<[h:=hv']> w.1, upd_headers <[entity.Key hv:=h]> w.2)).
    assert (headers_allocated w3) as Halloc3.
    { apply map_Forall_insert_2.
      - apply lookup_lt_is_Some. cbn. by rewrite length_insert.
      - eapply map_Forall_impl; [exact Halloc|]. cbn. intros _ l Hl.
        apply lookup_lt_is_Some. rewrite length_insert.
        by apply lookup_lt_is_Some. }
    intros range Hrange.
    destruct (Headers_spec w3 range Halloc3 Hrange) as (ls & Heq & _ & Hvals & Hvperm).
    exists ls, (w3.1 ++ deref w3.1 range.*2). split; [done|].
    rewrite Hvals, sort_Slice_Permutation, Hvperm.
    unfold stored_headers, deref. apply list_elem_of_omap. exists h. split.
    + apply list_elem_of_fmap. exists (entity.Key hv, h). split; [done|].
      apply elem_of_map_to_list. cbn. by rewrite lookup_insert_eq.
    + cbn. by apply list_lookup_insert_eq.
Qed.

End MoreHeaders.

Section MoreHeadersListing.
Context `{entity.Entities}.

Lemma stored_keys (σ : list entity.Header) (kvs : list (string * nat)) :
  Forall (λ kl, ∃ hv, σ !! kl.2 = Some hv ∧ entity.Key hv = kl.1) kvs →
  entity.Key <$> deref σ kvs.*2 = kvs.*1.
Proof.
  induction 1 as [|[key l] kvs (hv & Hl & Hkey) _ IH]; [done|].
  cbn [fmap list_fmap snd fst] in *. rewrite (deref_cons _ _ _ _ Hl).
  cbn [fmap list_fmap]. by rewrite Hkey, IH.
Qed.

Lemma StronglySorted_strict (hs : list entity.Header) :
  StronglySorted Header_le hs → NoDup (entity.Key <$> hs) →
  StronglySorted (strict Header_le) hs.
Proof.
  induction 1 as [|h hs _ IH Hall]; [constructor|].
  rewrite fmap_cons, NoDup_cons. intros [Hnotin Hnodup].
  constructor; [by apply IH|].
  rewrite Forall_forall in Hall |- *. intros h' Hh'. split; [by apply Hall|].
  intros Hle. apply Hnotin.
  assert (entity.Key h = entity.Key h') as ->
    by (apply (anti_symm String.le); [by apply Hall|done]).
  apply list_elem_of_fmap. by exists h'.
Qed.

Lemma api_step_keys_agree (w w' : World) :
  api_step w w' → keys_agree w → keys_agree w'.
Proof.
  destruct 1 as [name w|name w|h w|key w|range w Hrange|hv w]; intros Hw.
  - by destruct (UsePackage_step name w) as [->|(p & _ & ->)].
  - destruct (UseService_keeps_store name w) as (Hheap & _ & Hopt & _).
    unfold keys_agree. by rewrite Hheap, Hopt.
  - by apply keys_agree_AddHeader.
  - by apply map_Forall_delete.
  - destruct (Headers_spec w range (keys_agree_allocated w Hw) Hrange)
      as (ls & -> & _).
    destruct w as [σ e]. by apply keys_agree_app.
  - destruct w as [σ e]. by apply keys_agree_app.
Qed.

Lemma api_reachable_keys_agree (w : World) : api_reachable w → keys_agree w.
Proof.
  induction 1 as [pkgs0 hs σ|svcs msgs hs σ w Hnew|w w' _ IH Hstep].
  - unfold New. apply New_loop_stored; apply map_Forall_empty.
  - destruct (NewFromServices_spec svcs msgs hs σ) as (σ' & hm & Hnew0 & Heq & _).
    rewrite Hnew in Heq. injection Heq as ->.
    assert (keys_agree (New [ {| entity.Name := "default";
                                 entity.Services := svcs;
                                 entity.Messages := msgs |} ] hs σ).1) as Hk.
    { unfold New. apply New_loop_stored; apply map_Forall_empty. }
    by rewrite Hnew0 in Hk.
  - by eapply api_step_keys_agree.
Qed.

(** X14.  As long as the client writes to no header object (it may call
    every method and allocate headers), [Headers] returns, whatever the
    order of its [Range], exactly one header per stored key, in strictly
    ascending order of key: as many pointers as
    the store has keys, no key twice, each returned header being the one
    stored under its own key, and every stored key present. *)
Theorem Headers_one_per_key (w : World) (range : list (string * nat)) :
  api_reachable w →
  Range_order w range →
  ∃ (ls : list nat) (σ' : list entity.Header),
    Headers range w = ((σ', w.2), Ok ls) ∧
    length ls = size (headers (e_option w.2)) ∧
    StronglySorted (strict Header_le) (deref σ' ls) ∧
    NoDup (entity.Key <$> deref σ' ls) ∧
    (∀ hv, hv ∈ deref σ' ls ↔ stored_header w (entity.Key hv) = Some hv) ∧
    (∀ key, key ∈ entity.Key <$> deref σ' ls ↔
            is_Some (headers (e_option w.2) !! key)).
Proof.
  intros Hkeys%api_reachable_keys_agree Hrange.
  pose proof (keys_agree_allocated w Hkeys) as Halloc.
  pose proof Halloc as Hlist%headers_allocated_list.
  destruct (Headers_spec w range Halloc Hrange) as (ls & Heq & Hperm & Hvals & Hvperm).
  assert (entity.Key <$> stored_headers w
          = (map_to_list (headers (e_option w.2))).*1) as Hstored.
  { apply stored_keys, Forall_forall. intros [key l] Hkl%elem_of_map_to_list.
    by apply (Hkeys key l). }
  assert (entity.Key <$> deref (w.1 ++ deref w.1 range.*2) ls
          ≡ₚ (map_to_list (headers (e_option w.2))).*1) as Hkeyperm.
  { by rewrite Hvals, sort_Slice_Permutation, Hvperm, Hstored. }
  assert (NoDup (entity.Key <$> deref (w.1 ++ deref w.1 range.*2) ls)) as Hnodup.
  { rewrite Hkeyperm. apply NoDup_fst_map_to_list. }
  exists ls, (w.1 ++ deref w.1 range.*2). split_and!.
  - done.
  - rewrite Hperm, length_seq. unfold stored_headers.
    by rewrite (deref_length _ _ Hlist), length_fmap, length_map_to_list.
  - apply StronglySorted_strict; [|done]. rewrite Hvals.
    apply Headers_sort_Sorted.
  - done.
  - intros hv. rewrite Hvals, sort_Slice_Permutation, Hvperm.
    unfold stored_headers, deref, stored_header. rewrite list_elem_of_omap. split.
    + intros (l & ([key l'] & -> & Hkl%elem_of_map_to_list)%list_elem_of_fmap & Hl).
      cbn [snd] in Hl. destruct (Hkeys key l' Hkl) as (hv' & Hl' & Hkey).
      cbn in Hl'. assert (hv' = hv) as -> by congruence. rewrite Hkey.
      apply bind_Some. by exists l'.
    + intros (l & Hl & Hhv)%bind_Some. exists l. split; [|done].
      apply list_elem_of_fmap. exists (entity.Key hv, l). split; [done|].
      by apply elem_of_map_to_list.
  - intros key. rewrite Hkeyperm, list_elem_of_fmap. split.
    + intros ([key' l] & -> & Hkl%elem_of_map_to_list). by exists l.
    + intros [l Hl]. exists (key, l). split; [done|].
      by apply elem_of_map_to_list.
Qed.

End MoreHeadersListing.

(** * The further properties on the concrete catalog *)

Section MoreExamples.
#[local] Existing Instance Demo.entities.
Import Demo.

Lemma UsePackage_succeeds_iff_witness :
  (UsePackage "other" start).2 = Ok tt ∧ (UsePackage "nope" start).1 = start.
Proof.
  split.
  - apply (proj1 (UsePackage_succeeds_iff "other" start)).
    exists other. split; [|done]. by apply list_elem_of_In; right; left.
  - apply (proj2 (proj2 (UsePackage_succeeds_iff "nope" start))).
    by vm_compute.
Defined.

(** With [greet] selected, a dotted name is looked up as it is: no other
    package gets selected, and the failed call leaves [Greeter] selected. *)
Lemma UseService_frame_witness :
  currentService (e_state (UseService "other.Echo" at_Greeter).1.2) = "Greeter" ∧
  currentPackage (e_state (UseService "other.Echo" at_Greeter).1.2) = "greet".
Proof.
  destruct (UseService_frame "other.Echo" at_Greeter) as (_ & _ & _ & Hsvc & Hpkg).
  split.
  - rewrite Hsvc; by vm_compute.
  - destruct Hpkg as [-> _]; by vm_compute.
Defined.

Lemma queries_before_selection_witness :
  Service "Greeter" start.2 = Err ErrPackageUnselected ∧
  RPC "SayHello" at_greet.2 = Err ErrServiceUnselected ∧
  RPC "SayHello" (UsePackage "" at_Greeter).1.2 = Err ErrPackageUnselected.
Proof.
  split_and!.
  - by apply (proj1 (queries_before_selection start.2)).
  - by apply (proj1 (proj2 (queries_before_selection at_greet.2))).
  - apply (proj2 (proj2 (queries_before_selection (UsePackage "" at_Greeter).1.2)));
      by vm_compute.
Defined.

(** [Greeter] selected in [greet], then [other] selected: the RPCs of
    [Greeter] are gone, and the error names [Greeter], not [SayHello]. *)
Lemma RPCs_of_current_service_witness :
  RPCs at_Greeter.2 = Ok [SayHello] ∧
  RPC "SayHello" (UsePackage "other" at_Greeter).1.2
  = Err (errors_Wrapf ErrInvalidServiceName "%s not found" ["Greeter"]).
Proof.
  split.
  - apply (proj1 (RPCs_of_current_service at_Greeter.2)).
    split; [by vm_compute|].
    exists (entity.Services greet), Greeter. split; [by vm_compute|].
    split; [|done]. by exists [], [greet_Greeter].
  - destruct (proj2 (RPCs_of_current_service (UsePackage "other" at_Greeter).1.2)
                [] ) as (_ & Hrpc & _); [by vm_compute..|by constructor|].
    apply Hrpc.
Defined.

Lemma queries_after_UsePackage_witness :
  Services (UsePackage "other" start).1.2 = Ok [] ∧
  Services (UsePackage "" start).1.2 = Err ErrPackageUnselected.
Proof.
  split.
  - destruct (queries_after_UsePackage "other" start (UsePackage "other" start).1)
      as (p & Hp & _ & Hnamed & _); [by vm_compute|].
    destruct Hnamed as (_ & -> & _); [done|].
    assert (p = other) as ->; [|done].
    apply (first_match_unique entity.Name "other" catalog); [done|].
    exists [greet], [unnamed]. split_and!; [done..|]. by repeat constructor.
  - destruct (queries_after_UsePackage "" start (UsePackage "" start).1)
      as (p & _ & _ & _ & Hunnamed); [by vm_compute|].
    by destruct Hunnamed as (_ & -> & _).
Defined.

Lemma error_causes_witness :
  errors_Cause (errors_Wrapf
                  (errors_Wrapf ErrUnknownPackage "%s not found" ["nope"])
                  "nope.Greeter" [])
  = ErrPackageUnselected ∨
  errors_Cause (errors_Wrapf
                  (errors_Wrapf ErrUnknownPackage "%s not found" ["nope"])
                  "nope.Greeter" [])
  = ErrUnknownPackage ∨
  errors_Cause (errors_Wrapf
                  (errors_Wrapf ErrUnknownPackage "%s not found" ["nope"])
                  "nope.Greeter" [])
  = ErrUnknownService.
Proof.
  apply (proj1 (proj2 (error_causes "nope.Greeter" start _))).
  by vm_compute.
Defined.

Lemma UseService_after_NewFromServices_witness :
  DSN (UseService "greet.Greeter"
         (NewFromServices (entity.Services greet) [] [] []).1).1.2
  = "default.greet.Greeter" ∧
  (UsePackage "greet" (NewFromServices (entity.Services greet) [] [] []).1).2
  = Err (errors_Wrapf ErrUnknownPackage "%s not found" ["greet"]).
Proof.
  destruct (UseService_after_NewFromServices (entity.Services greet) [] [] []
              (NewFromServices (entity.Services greet) [] [] []).1 "greet.Greeter")
    as (Hfound & _); [by vm_compute|].
  destruct (UseService_after_NewFromServices (entity.Services greet) [] [] []
              (NewFromServices (entity.Services greet) [] [] []).1 "greet")
    as (_ & _ & Hpkg); [by vm_compute|].
  split.
  - destruct (Hfound greet_Greeter) as (_ & Hdsn).
    + exists [Greeter], []. split_and!; [done..|]. by repeat constructor.
    + by destruct Hdsn as [_ ->].
  - by rewrite Hpkg.
Defined.

(** From [greet] selected: [Greeter] is selected, then [other]. *)
Lemma run_keeps_catalog_and_cache_witness :
  Packages (UsePackage "other" at_Greeter).1.2 = catalog ∧
  is_Some (pkg (e_cache (UsePackage "other" at_Greeter).1.2) !! "greet").
Proof.
  destruct (run_keeps_catalog_and_cache at_greet (UsePackage "other" at_Greeter).1)
    as (Hcat & _ & Hcache).
  - eapply rtc_l; [apply (step_UseService "Greeter")|].
    apply rtc_once, step_UsePackage.
  - split; [rewrite Hcat; by vm_compute|].
    apply Hcache. vm_compute. by eexists.
Defined.

Lemma cache_agrees_with_catalog_witness :
  ∃ p, scan entity.Name (currentPackage (e_state named_at_Greeter.2))
         (Packages named_at_Greeter.2) = Some p ∧
       Services named_at_Greeter.2 = Ok (entity.Services p).
Proof.
  destruct (cache_agrees_with_catalog named_at_Greeter named_at_Greeter_reachable)
    as (_ & Hsel).
  destruct Hsel as (p & _ & Hscan & Hsvcs & _); [by vm_compute|].
  by exists p.
Defined.

(** Two defaults under the key [k]: the second one is stored. *)
Lemma New_initial_world_witness :
  stored_header
    (New catalog [ {| entity.Key := "k"; entity.Val := "1" |};
                   {| entity.Key := "k"; entity.Val := "2" |} ]
       [ {| entity.Key := "old"; entity.Val := "0" |} ]).1 "k"
  = Some {| entity.Key := "k"; entity.Val := "2" |} ∧
  (New catalog [ {| entity.Key := "k"; entity.Val := "1" |};
                 {| entity.Key := "k"; entity.Val := "2" |} ]
     [ {| entity.Key := "old"; entity.Val := "0" |} ]).1.1 !! 0
  = Some {| entity.Key := "old"; entity.Val := "0" |}.
Proof.
  destruct (New_initial_world catalog
              [ {| entity.Key := "k"; entity.Val := "1" |};
                {| entity.Key := "k"; entity.Val := "2" |} ]
              [ {| entity.Key := "old"; entity.Val := "0" |} ])
    as (_ & _ & _ & _ & Hstored & _ & Hold & _).
  split; [by rewrite Hstored|]. by apply Hold.
Defined.

(** The client's header is the third object of the world [(alloc ...)]. *)
Lemma AddHeader_RemoveHeader_witness :
  (RemoveHeader "c"
     (AddHeader 2 (start.1 ++ [ {| entity.Key := "c"; entity.Val := "3" |} ],
                   start.2)).1).1
  = (start.1 ++ [ {| entity.Key := "c"; entity.Val := "3" |} ], start.2).
Proof.
  apply (proj1 (AddHeader_RemoveHeader 2 {| entity.Key := "c"; entity.Val := "3" |}
                  (start.1 ++ [ {| entity.Key := "c"; entity.Val := "3" |} ],
                   start.2) eq_refl)).
  by vm_compute.
Defined.

Lemma AddHeader_aliases_argument_witness :
  let w0 : World :=
    (start.1 ++ [ {| entity.Key := "c"; entity.Val := "3" |} ], start.2) in
  stored_header
    (<[2 := {| entity.Key := "zz"; entity.Val := "9" |}]> (AddHeader 2 w0).1.1,
     (AddHeader 2 w0).1.2) "c"
  = Some {| entity.Key := "zz"; entity.Val := "9" |}.
Proof.
  intros w0.
  destruct (AddHeader_aliases_argument 2
              {| entity.Key := "c"; entity.Val := "3" |}
              {| entity.Key := "zz"; entity.Val := "9" |} w0)
    as (_ & _ & Hstored & _).
  - apply headers_allocated_list. vm_compute. repeat constructor; by eexists.
  - done.
  - exact Hstored.
Defined.

Lemma Headers_one_per_key_witness :
  ∃ (ls : list nat) (σ' : list entity.Header),
    Headers (map_to_list (headers (e_option start.2))) start
    = ((σ', start.2), Ok ls) ∧ length ls = 2.
Proof.
  destruct (Headers_one_per_key start (map_to_list (headers (e_option start.2))))
    as (ls & σ' & Heq & Hlen & _).
  - apply api_New.
  - by unfold Range_order.
  - exists ls, σ'. split; [done|]. rewrite Hlen. by vm_compute.
Defined.

End MoreExamples.
